(** * Acore::Containers — a shallow embedding of [src/common/Utilities/Containers.h]

    The header is a small library of generic container algorithms: a
    bounds-checked output iterator, randomized resizing and selection, a
    stable erase and a multimap pair erase.  Each C++ function is embedded
    below under its own name: the definitions come first, the facts about
    them follow, one section per function.

    Conventions of the embedding
    - a sequence container ([std::vector], [std::list], ...) is a [list];
      an iterator into it is the index of the element it denotes, and the
      end iterator is the length of the list;
    - [uint32] values are integers in [Z] reduced modulo [2^32] wherever the
      C++ code converts to or computes in that type;
    - calls into [Random.h] ([urand], [urandweighted]) are nodes of a
      decision tree ([Rand]); the tree is read deterministically (one draw
      per node, supplied by an engine) or as a probability distribution;
    - a C++ exception is the [Throw] result, undefined behaviour is the
      [Undef] leaf of a tree. *)

From Stdlib Require Import ZArith QArith Qcanon Lia String.
From Stdlib Require Import Floats.PrimFloat Floats.FloatOps Floats.SpecFloat.
From Stdlib Require Import Floats.FloatAxioms.
From stdpp Require Import base option list numbers gmap.

#[local] Open Scope Z_scope.

(** ** Machine integers *)

Definition uint32_modulus : Z := 2 ^ 32.
Definition size_t_modulus : Z := 2 ^ 64.

(** Conversion of an integer value to [uint32] (C++ unsigned narrowing). *)
Definition to_uint32 (z : Z) : Z := z mod uint32_modulus.

(** Conversion of an integer value to [std::size_t] on the 64-bit targets
    the project builds for. *)
Definition to_size_t (z : Z) : Z := z mod size_t_modulus.

(** ** Exceptions *)

Inductive exn : Type :=
| out_of_range (what : string).

Inductive result (A : Type) : Type :=
| Ok (a : A)
| Throw (e : exn).
Arguments Ok {A} a.
Arguments Throw {A} e.

Definition result_bind {A B} (r : result A) (f : A -> result B) : result B :=
  match r with
  | Ok a => f a
  | Throw e => Throw e
  end.

(** * [Acore::CheckedBufferOutputIterator] *)

Module Checked.

(** A [T*] is the address of a [T] cell, counted in cells; the externally
    owned storage is a finite map from addresses to cell contents. *)
Abbreviation memory T := (gmap Z T) (only parsing).

Section Iterator.
(** The element type [T] of the buffer. *)
Context {T : Type}.

(** The two private members [_buf] and [_end]. *)
Record CheckedBufferOutputIterator : Type := mkIterator {
  _buf : Z;
  _end : Z
}.

(** [CheckedBufferOutputIterator(T* buf, std::size_t n)
      : _buf(buf), _end(buf + n)] *)
Definition construct (buf : Z) (n : Z) : CheckedBufferOutputIterator :=
  {| _buf := buf; _end := buf + n |}.

(** [void check() const]: throws [std::out_of_range("index")] unless
    [_buf < _end]. *)
Definition check (it : CheckedBufferOutputIterator) : result unit :=
  if negb (_buf it <? _end it) then Throw (out_of_range "index") else Ok tt.

(** [T& operator*() const { check(); return *_buf; }]: the reference
    returned is the address of the current cell. *)
Definition deref (it : CheckedBufferOutputIterator) : result Z :=
  result_bind (check it) (fun _ => Ok (_buf it)).

(** [operator++() { check(); ++_buf; return *this; }] *)
Definition incr (it : CheckedBufferOutputIterator)
  : result CheckedBufferOutputIterator :=
  result_bind (check it) (fun _ => Ok {| _buf := _buf it + 1; _end := _end it |}).

(** [operator++(int) { auto v = *this; operator++(); return v; }]: the
    first component is the returned copy, the second the advanced [*this]. *)
Definition post_incr (it : CheckedBufferOutputIterator)
  : result (CheckedBufferOutputIterator * CheckedBufferOutputIterator) :=
  let v := it in
  result_bind (incr it) (fun it' => Ok (v, it')).

(** [std::size_t remaining() const { return (_end - _buf); }]: the
    pointer difference is converted to [std::size_t]. *)
Definition remaining (it : CheckedBufferOutputIterator) : Z :=
  to_size_t (_end it - _buf it).

(** *** Writing through the iterator

    Storage outlives an exception, so a producer is a function from the
    storage to an outcome and the storage it leaves behind. *)
Definition writer (A : Type) : Type := memory T -> result A * memory T.

Definition wret {A} (a : A) : writer A := fun m => (Ok a, m).

Definition wbind {A B} (w : writer A) (f : A -> writer B) : writer B :=
  fun m => match w m with
           | (Ok a, m') => f a m'
           | (Throw e, m') => (Throw e, m')
           end.

Definition wlift {A} (r : result A) : writer A := fun m => (r, m).

(** Assignment through a reference: [ref = x]. *)
Definition store (ref : Z) (x : T) : writer unit :=
  fun m => (Ok tt, <[ref := x]> m).

(** The output-iterator idiom [*it++ = x]: the postfix increment is
    evaluated, then its result is dereferenced and assigned through. *)
Definition write_advance (x : T) (it : CheckedBufferOutputIterator)
  : writer CheckedBufferOutputIterator :=
  wbind (wlift (post_incr it)) (fun '(v, it') =>
  wbind (wlift (deref v)) (fun ref =>
  wbind (store ref x) (fun _ => wret it'))).

(** The two-statement form [*it = x; ++it;]. *)
Definition write_then_incr (x : T) (it : CheckedBufferOutputIterator)
  : writer CheckedBufferOutputIterator :=
  wbind (wlift (deref it)) (fun ref =>
  wbind (store ref x) (fun _ => wlift (incr it))).

(** [std::copy(xs.begin(), xs.end(), it)]: one write-and-advance step per
    element, in order. *)
Fixpoint write_all (xs : list T) (it : CheckedBufferOutputIterator)
  : writer CheckedBufferOutputIterator :=
  match xs with
  | [] => wret it
  | x :: xs' => wbind (write_advance x it) (write_all xs')
  end.

(** [k] successive pre-increments. *)
Fixpoint advance (k : nat) (it : CheckedBufferOutputIterator)
  : result CheckedBufferOutputIterator :=
  match k with
  | O => Ok it
  | S k' => result_bind (incr it) (advance k')
  end.

(** The iterator states a program can be in: the constructed one and
    those reached from it by increments that did not throw. *)
Inductive reachable (buf n : Z) : CheckedBufferOutputIterator -> Prop :=
| reachable_construct : reachable buf n (construct buf n)
| reachable_incr it it' :
    reachable buf n it -> incr it = Ok it' -> reachable buf n it'.

(** The cells of the buffer [buf, buf + n) hold [xs], in order. *)
Definition buffer_holds (m : memory T) (buf : Z) (xs : list T) : Prop :=
  forall i : nat, (i < length xs)%nat -> m !! (buf + Z.of_nat i) = xs !! i.

(** Two storages agree outside the window [buf, buf + n). *)
Definition same_outside (m m' : memory T) (buf n : Z) : Prop :=
  forall a : Z, ~ (buf <= a < buf + n) -> m' !! a = m !! a.

End Iterator.

End Checked.

(** * The random source ([Random.h])

    [Random.h] is not among the sources; only the calls [urand(min, max)]
    and [urandweighted(count, chances)] are.  A computation that draws from
    the random source is a tree: a leaf is its result, a node is one call
    and has one subtree per value the call can return. *)

Module Random.

Inductive Rand (A : Type) : Type :=
| Ret (a : A)
| Undef
| Urand (min max : Z) (k : Z -> Rand A)
| Urandweighted (chances : list float) (k : nat -> Rand A).
Arguments Ret {A} a.
Arguments Undef {A}.
Arguments Urand {A} min max k.
Arguments Urandweighted {A} chances k.

Fixpoint bind {A B} (t : Rand A) (f : A -> Rand B) : Rand B :=
  match t with
  | Ret a => f a
  | Undef => Undef
  | Urand lo hi k => Urand lo hi (fun v => bind (k v) f)
  | Urandweighted ws k => Urandweighted ws (fun i => bind (k i) f)
  end.

#[global] Instance Rand_ret : MRet Rand := @Ret.
#[global] Instance Rand_bind : MBind Rand := fun A B f t => bind t f.

(** Modelled from the spec: [uniformInt(low, high) -> integer], an
    inclusive-range uniform draw; [urand] of [Random.h] is missing. *)
Definition urand (min max : Z) : Rand Z := Urand min max Ret.

(** Modelled from the spec: [weightedIndex(weights) -> index], an index
    drawn with probability proportional to its weight; [urandweighted] of
    [Random.h] is missing. *)
Definition urandweighted (chances : list float) : Rand nat :=
  Urandweighted chances Ret.

(** Modelled from the spec: the weights of [weightedIndex] are
    non-negative reals.  A [double] weight stands for the real number
    [m * 2^e] when it is a finite, non-negative binary64 value; negative,
    infinite and NaN weights stand for no number. *)
Definition weight_value (w : float) : option Qc :=
  match Prim2SF w with
  | S754_zero _ => Some 0%Qc
  | S754_finite false m e => Some (Q2Qc (inject_Z (Z.pos m) * Qpower 2 e))
  | _ => None
  end.

Definition Qcsum (qs : list Qc) : Qc := foldr Qcplus 0%Qc qs.

(** Modelled from the spec: a weighted draw is valid when every weight
    is a number and their sum is strictly positive (in [Containers.h]: the
    caller is responsible for checking that the sum of all weights is
    greater than 0). *)
Definition weight_values (chances : list float) : option (list Qc) :=
  qs ← mapM weight_value chances;
  if bool_decide (0 < Qcsum qs)%Qc then Some qs else None.

(** Modelled from the spec: the contract of the random source is that a
    [urand] result lies in the requested range, which must not be empty,
    and that a [urandweighted] result indexes a valid weight vector.
    [returns t P]: whatever values the random source returns within this
    contract, the computation [t] has no undefined behaviour and its
    result satisfies [P]. *)
Fixpoint returns {A} (t : Rand A) (P : A -> Prop) : Prop :=
  match t with
  | Ret a => P a
  | Undef => False
  | Urand lo hi k => lo <= hi /\ forall v, lo <= v <= hi -> returns (k v) P
  | Urandweighted ws k =>
      is_Some (weight_values ws) /\
      forall i, (i < length ws)%nat -> returns (k i) P
  end.

(** A random engine: its state, and the two draws as functions that
    return a value and the advanced state. *)
Record RandomEngine : Type := mkEngine {
  engine_state : Type;
  engine_urand : Z -> Z -> engine_state -> Z * engine_state;
  engine_urandweighted : list float -> engine_state -> nat * engine_state
}.

(** The contract of the random source, as [returns] reads it. *)
Definition engine_contract (e : RandomEngine) : Prop :=
  (forall lo hi s, lo <= hi ->
     lo <= (engine_urand e lo hi s).1 <= hi) /\
  (forall ws s, is_Some (weight_values ws) ->
     ((engine_urandweighted e ws s).1 < length ws)%nat).

(** One execution of [t]: every call is answered by the engine.  [None]
    is undefined behaviour. *)
Fixpoint run (e : RandomEngine) {A} (t : Rand A) (s : engine_state e)
  : option (A * engine_state e) :=
  match t with
  | Ret a => Some (a, s)
  | Undef => None
  | Urand lo hi k =>
      let '(v, s') := engine_urand e lo hi s in run e (k v) s'
  | Urandweighted ws k =>
      let '(i, s') := engine_urandweighted e ws s in run e (k i) s'
  end.

(** A small deterministic engine (a linear congruential generator) to run
    examples with; any engine that keeps the contract will do. *)
Definition lcg_next (s : Z) : Z := (s * 1103515245 + 12345) mod 2 ^ 31.

Definition lcg_engine : RandomEngine :=
  {| engine_state := Z;
     engine_urand := fun lo hi s => (lo + s mod (hi - lo + 1), lcg_next s);
     engine_urandweighted := fun ws s =>
       (Z.to_nat (s mod Z.of_nat (length ws)), lcg_next s) |}.

(** [outcomes t P]: every result [t] can produce satisfies [P] (nothing is
    said about undefined behaviour). *)
Fixpoint outcomes {A} (t : Rand A) (P : A -> Prop) : Prop :=
  match t with
  | Ret a => P a
  | Undef => True
  | Urand lo hi k => forall v, lo <= v <= hi -> outcomes (k v) P
  | Urandweighted ws k => forall i, (i < length ws)%nat -> outcomes (k i) P
  end.

(** Modelled from the spec: [prob t E] is the probability that [t]
    returns a result in the event [E], when the draws are independent,
    [urand(lo, hi)] is uniform on [lo..hi] and [urandweighted] picks index
    [i] with probability [w_i / sum w].  Undefined behaviour and invalid
    draws contribute nothing. *)
Fixpoint prob {A} (t : Rand A) (E : A -> bool) : Qc :=
  match t with
  | Ret a => if E a then 1%Qc else 0%Qc
  | Undef => 0%Qc
  | Urand lo hi k =>
      (Qcsum ((fun v => prob (k v) E) <$> seqZ lo (hi - lo + 1))
       / Qc_of_Z (hi - lo + 1))%Qc
  | Urandweighted ws k =>
      match weight_values ws with
      | Some qs =>
          Qcsum (imap (fun i q => (q / Qcsum qs * prob (k i) E)%Qc) qs)
      | None => 0%Qc
      end
  end.

(** Two computations that make the same calls and agree on every value
    the random source can return. *)
Inductive Rand_equiv {A} : Rand A -> Rand A -> Prop :=
| equiv_Ret a : Rand_equiv (Ret a) (Ret a)
| equiv_Undef : Rand_equiv Undef Undef
| equiv_Urand lo hi k1 k2 :
    (forall v, lo <= v <= hi -> Rand_equiv (k1 v) (k2 v)) ->
    Rand_equiv (Urand lo hi k1) (Urand lo hi k2)
| equiv_Urandweighted ws k1 k2 :
    (forall i, (i < length ws)%nat -> Rand_equiv (k1 i) (k2 i)) ->
    Rand_equiv (Urandweighted ws k1) (Urandweighted ws k2).

End Random.

(** * [Acore::AddressOrSelf] and pointers *)

(** A pointer is null or the address of an object; objects are named by
    locations of type [L]. *)
Inductive pointer (L : Type) : Type :=
| nullptr
| address (l : L).
Arguments nullptr {L}.
Arguments address {L} l.

(** An lvalue of type [V]: the location of an object and the value stored
    there. *)
Record lvalue (L V : Type) : Type := mkLvalue {
  location : L;
  contents : V
}.
Arguments mkLvalue {L V} location contents.
Arguments location {L V} _.
Arguments contents {L V} _.

(** The two overloads of [AddressOrSelf]: the argument type selects one at
    compile time.  [P] is the type of locations the result points to. *)
Class AddressOrSelf (L V P : Type) : Type :=
  address_or_self : lvalue L V -> pointer P.

(** [template<class T> T* AddressOrSelf(T* ptr) { return ptr; }] *)
#[global] Instance AddressOrSelf_ptr {L P} : AddressOrSelf L (pointer P) P | 0 :=
  fun ptr => contents ptr.

(** [template<class T> T* AddressOrSelf(T& not_ptr)
      { return std::addressof(not_ptr); }] *)
#[global] Instance AddressOrSelf_ref {L V} : AddressOrSelf L V L | 10 :=
  fun not_ptr => address (location not_ptr).

(** * [Acore::Containers] *)

Module Containers.
Import Random.

(** ** Iterators of a sequence container *)

Section Iterators.
Context {T : Type}.

(** [*it]: the end iterator (and anything past it) cannot be dereferenced. *)
Definition deref (container : list T) (it : nat) : Rand T :=
  match container !! it with
  | Some x => Ret x
  | None => Undef
  end.

(** [++it]: the end iterator cannot be incremented. *)
Definition next (container : list T) (it : nat) : Rand nat :=
  if bool_decide (it < length container)%nat then Ret (S it) else Undef.

(** [std::advance(it, n)] from [it]: at most up to the end iterator. *)
Definition advance (container : list T) (it : nat) (n : Z) : Rand nat :=
  if bool_decide (0 <= n /\ Z.of_nat it + n <= Z.of_nat (length container))
  then Ret (it + Z.to_nat n)%nat
  else Undef.

End Iterators.

(** ** [RandomResize] *)

Section RandomResize.
Context {T : Type}.

(** The body of [while (elementsToProcess)].  The counter
    [elementsToProcess] is only decremented when it is not zero, so it is a
    natural number here; [elementsToKeep] is a [uint32] and its decrement
    wraps.  [*keepIt = std::move( *curIt )] stores the element at [curIt] in
    the slot at [keepIt]. *)
Fixpoint RandomResize_loop (elementsToProcess : nat) (container : list T)
    (keepIt curIt : nat) (elementsToKeep : Z) : Rand (list T * nat) :=
  match elementsToProcess with
  | O => Ret (container, keepIt)
  | S elementsToProcess' =>
      r ← urand 1 (Z.of_nat elementsToProcess);
      if r <=? elementsToKeep then
        container' ←
          (if bool_decide (keepIt ≠ curIt)
           then x ← deref container curIt; Ret (<[keepIt := x]> container)
           else Ret container);
        keepIt' ← next container' keepIt;
        curIt' ← next container' curIt;
        RandomResize_loop elementsToProcess' container' keepIt' curIt'
          (to_uint32 (elementsToKeep - 1))
      else
        curIt' ← next container curIt;
        RandomResize_loop elementsToProcess' container keepIt curIt'
          elementsToKeep
  end.

(** [void RandomResize(C& container, std::size_t requestedSize)]; the
    result is the container as the call leaves it.
    [container.erase(keepIt, std::end(container))] keeps the first [keepIt]
    elements. *)
Definition RandomResize (container : list T) (requestedSize : nat)
  : Rand (list T) :=
  if bool_decide (length container ≤ requestedSize)%nat then Ret container
  else
    let keepIt := 0%nat in
    let curIt := 0%nat in
    let elementsToKeep := to_uint32 (Z.of_nat requestedSize) in
    let elementsToProcess := to_uint32 (Z.of_nat (length container)) in
    '(container', keepIt') ←
      RandomResize_loop (Z.to_nat elementsToProcess) container keepIt curIt
        elementsToKeep;
    Ret (take keepIt' container').

(** [std::copy_if(first, last, std::inserter(copy, std::end(copy)), pred)]:
    every element that satisfies the predicate is inserted at the end of
    the destination. *)
Definition copy_if (container : list T) (containerCopy : list T)
    (predicate : T -> bool) : list T :=
  foldl (fun copy x => if predicate x then copy ++ [x] else copy)
        containerCopy container.

(** [void RandomResize(C& container, Predicate&& predicate,
                      std::size_t requestedSize)]; the result is
    [containerCopy] as it is moved into [container]. *)
Definition RandomResize_predicate (container : list T)
    (predicate : T -> bool) (requestedSize : nat) : Rand (list T) :=
  let containerCopy := copy_if container [] predicate in
  if bool_decide (requestedSize ≠ 0%nat)
  then RandomResize containerCopy requestedSize
  else Ret containerCopy.

(** The Reservoir Resizer in the words of the specification: for each
    element in order, draw a uniform integer in [1, remainingToProcess];
    keep the element iff the draw is [<= remainingToKeep] (and decrement
    [remainingToKeep]); always decrement [remainingToProcess]. *)
Fixpoint reservoir_pass (elements : list T)
    (remainingToKeep remainingToProcess : Z) : Rand (list T) :=
  match elements with
  | [] => Ret []
  | x :: elements' =>
      draw ← urand 1 remainingToProcess;
      if draw <=? remainingToKeep then
        kept ← reservoir_pass elements' (remainingToKeep - 1)
                 (remainingToProcess - 1);
        Ret (x :: kept)
      else
        reservoir_pass elements' remainingToKeep (remainingToProcess - 1)
  end.

(** The container with every element paired with its position: the
    positions of the survivors can be read off the result. *)
Definition with_positions (container : list T) : list (nat * T) :=
  zip (seq 0 (length container)) container.

(** A container of [2^32] elements. *)
Definition huge_container (x : T) : list T :=
  replicate (Z.to_nat uint32_modulus) x.

End RandomResize.

(** ** Selectors *)

Section Selectors.
Context {T : Type}.

(** [SelectRandomContainerElement(C const& container)]: the result is the
    position of the element the returned reference denotes.  The upper
    bound of the draw is computed in [uint32]. *)
Definition SelectRandomContainerElement (container : list T) : Rand nat :=
  let it := 0%nat in
  n ← urand 0 (to_uint32 (to_uint32 (Z.of_nat (length container)) - 1));
  it' ← advance container it n;
  _ ← deref container it';
  Ret it'.

(** Position [i] holds an element that satisfies the predicate. *)
Definition matches (container : list T) (predicate : T -> bool) (i : nat)
  : Prop :=
  exists x, container !! i = Some x /\ predicate x = true.

(** The scan of [SelectRandomContainerElementIf]: [it] runs over the
    container and the iterators of matching elements are pushed back. *)
Fixpoint collect_matching (predicate : T -> bool) (rest : list T) (it : nat)
    (matchingElements : list nat) : list nat :=
  match rest with
  | [] => matchingElements
  | x :: rest' =>
      collect_matching predicate rest' (S it)
        (if predicate x then matchingElements ++ [it] else matchingElements)
  end.

(** [SelectRandomContainerElementIf(C const& container,
                                    Predicate&& predicate)]: the result
    is an iterator, [length container] being the end iterator.  The bounds
    of the draw are passed to [urand] as the integers they are. *)
Definition SelectRandomContainerElementIf (container : list T)
    (predicate : T -> bool) : Rand nat :=
  let matchingElements := collect_matching predicate container 0 [] in
  if bool_decide (matchingElements = []) then Ret (length container)
  else
    i ← urand 0 (Z.of_nat (length matchingElements) - 1);
    match (if bool_decide (0 <= i) then matchingElements !! Z.to_nat i
           else None) with
    | Some randomIt => Ret randomIt
    | None => Undef
    end.

(** [SelectRandomWeightedContainerElement(C const& container,
                                          std::vector<double> weights)] *)
Definition SelectRandomWeightedContainerElement (container : list T)
    (weights : list float) : Rand nat :=
  let it := 0%nat in
  i ← urandweighted weights;
  advance container it (Z.of_nat i).

(** The sum of a vector of [double]s, accumulated from [0.0] in order. *)
Definition float_sum (weights : list float) : float :=
  foldl PrimFloat.add 0%float weights.

(** The loop of the extractor overload: one weight per element, pushed
    back, and the running sum. *)
Definition extract_weights (weightExtractor : T -> float)
    (container : list T) : list float * float :=
  foldl (fun '(weights, weightSum) val =>
           let weight := weightExtractor val in
           (weights ++ [weight], (weightSum + weight)%float))
        ([], 0%float) container.

(** [SelectRandomWeightedContainerElement(C const& container,
                                          Fn weightExtractor)] *)
Definition SelectRandomWeightedContainerElement_extractor
    (container : list T) (weightExtractor : T -> float) : Rand nat :=
  let '(weights, weightSum) := extract_weights weightExtractor container in
  let weights :=
    if (weightSum <=? 0)%float
    then replicate (length container) 1%float
    else weights in
  SelectRandomWeightedContainerElement container weights.

End Selectors.

(** ** [MapGetValuePtr] *)

Section Maps.
Context `{Countable K} {V P : Type} `{!AddressOrSelf K V P}.

(** [map.find(key)]: an iterator to the entry of [key], or [map.end()];
    the entry's [second] is an lvalue inside the node of [key].  Looking up
    does not change the map, which is returned as the call leaves it. *)
Definition find (map : gmap K V) (key : K)
  : option (lvalue K V) * gmap K V :=
  (mkLvalue key <$> map !! key, map).

(** [MapGetValuePtr(M& map, typename M::key_type const& key)] *)
Definition MapGetValuePtr (map : gmap K V) (key : K)
  : pointer P * gmap K V :=
  let '(itr, map) := find map key in
  (match itr with
   | Some second => address_or_self second
   | None => nullptr
   end, map).

(** Reading through a pointer into the nodes of a map. *)
Definition load (map : gmap K V) (ptr : pointer K) : option V :=
  match ptr with
  | nullptr => None
  | address key => map !! key
  end.

End Maps.

(** ** [MultimapErasePair] *)

Section Multimap.
Context {K V : Type} `{EqDecision V}.
(** The key comparison of the multimap ([std::less<K>] by default). *)
Variable less : K -> K -> bool.

(** A multimap is the sequence of its entries in iteration order; an
    iterator is a position in it.  [lower_bound] is the first position
    whose key is not less than [key], [upper_bound] the first position
    whose key is greater. *)
Fixpoint lower_bound (multimap : list (K * V)) (key : K) : nat :=
  match multimap with
  | [] => 0
  | e :: multimap' =>
      if less e.1 key then S (lower_bound multimap' key) else 0
  end.

Fixpoint upper_bound (multimap : list (K * V)) (key : K) : nat :=
  match multimap with
  | [] => 0
  | e :: multimap' =>
      if less key e.1 then 0 else S (upper_bound multimap' key)
  end.

Definition equal_range (multimap : list (K * V)) (key : K) : nat * nat :=
  (lower_bound multimap key, upper_bound multimap key).

(** The [for] loop of [MultimapErasePair].  Iterators of a multimap denote
    nodes: erasing the node at [itr], which lies before [range_second],
    moves the node [range_second] denotes one position down. *)
Fixpoint MultimapErasePair_loop (fuel : nat) (multimap : list (K * V))
    (value : V) (itr range_second : nat) : option (list (K * V)) :=
  if bool_decide (itr = range_second) then Some multimap
  else match fuel with
       | O => None
       | S fuel' =>
           e ← multimap !! itr;
           if bool_decide (e.2 = value)
           then MultimapErasePair_loop fuel' (delete itr multimap) value
                  itr (pred range_second)
           else MultimapErasePair_loop fuel' multimap value
                  (S itr) range_second
       end.

(** The loop run over a given [range]; [None] is undefined behaviour. *)
Definition MultimapErasePair_range (multimap : list (K * V)) (value : V)
    (range : nat * nat) : option (list (K * V)) :=
  MultimapErasePair_loop (length multimap) multimap value range.1 range.2.

(** [void MultimapErasePair(M<K, V, Rest...>& multimap, K const& key,
                           V const& value)] *)
Definition MultimapErasePair (multimap : list (K * V)) (key : K) (value : V)
  : option (list (K * V)) :=
  let range := equal_range multimap key in
  MultimapErasePair_range multimap value range.

(** The entries of a multimap are ordered by key: no entry is followed by
    one with a smaller key. *)
Definition key_ordered (multimap : list (K * V)) : Prop :=
  forall i j e1 e2, (i < j)%nat ->
    multimap !! i = Some e1 -> multimap !! j = Some e2 ->
    less e2.1 e1.1 = false.

(** What [equal_range] of any multimap-like container returns: the
    positions of the range are exactly those of the entries whose key is
    [key]. *)
Definition is_equal_range `{EqDecision K} (multimap : list (K * V)) (key : K)
    (range : nat * nat) : Prop :=
  (range.1 <= range.2 <= length multimap)%nat /\
  forall i e, multimap !! i = Some e ->
    (e.1 = key <-> (range.1 <= i < range.2)%nat).

(** The entries the call must leave: those that are not the pair. *)
Definition not_the_pair `{EqDecision K} (key : K) (value : V) (e : K * V)
  : bool :=
  negb (bool_decide (e.1 = key /\ e.2 = value)).

Definition other_value (value : V) (e : K * V) : bool :=
  negb (bool_decide (e.2 = value)).

End Multimap.

(** ** [EraseIf] *)

Section EraseIf.
Context {T : Type}.

(** The loop of the move-assignable overload; [end_] is [c.end()] as
    evaluated once, before the loop. *)
Fixpoint EraseIf_move_loop (fuel : nat) (c : list T) (p : T -> bool)
    (wpos rpos end_ : nat) : option (list T * nat) :=
  if bool_decide (rpos = end_) then Some (c, wpos)
  else match fuel with
       | O => None
       | S fuel' =>
           x ← c !! rpos;
           if negb (p x) then
             c' ← (if bool_decide (rpos ≠ wpos)
                   then y ← c !! wpos; Some (<[wpos := x]> (<[rpos := y]> c))
                   else Some c);
             EraseIf_move_loop fuel' c' p (S wpos) (S rpos) end_
           else EraseIf_move_loop fuel' c p wpos (S rpos) end_
       end.

(** [EraseIf(Container& c, Predicate p)] for move-assignable elements;
    [None] is undefined behaviour. *)
Definition EraseIf_move (c : list T) (p : T -> bool) : option (list T) :=
  let wpos := 0%nat in
  '(c', wpos') ← EraseIf_move_loop (length c) c p wpos 0 (length c);
  Some (take wpos' c').

(** The loop of the other overload; [c.end()] is evaluated at every
    iteration, [it = c.erase(it)] removes the element at [it]. *)
Fixpoint EraseIf_erase_loop (fuel : nat) (c : list T) (p : T -> bool)
    (it : nat) : option (list T) :=
  if bool_decide (it = length c) then Some c
  else match fuel with
       | O => None
       | S fuel' =>
           x ← c !! it;
           if p x then EraseIf_erase_loop fuel' (delete it c) p it
           else EraseIf_erase_loop fuel' c p (S it)
       end.

(** [EraseIf(Container& c, Predicate p)] for elements that are not
    move-assignable. *)
Definition EraseIf_erase (c : list T) (p : T -> bool) : option (list T) :=
  EraseIf_erase_loop (length c) c p 0.

End EraseIf.

End Containers.

(** ** Binomial coefficients *)

Fixpoint binomial (n k : nat) : nat :=
  match n, k with
  | _, O => 1
  | O, S _ => 0
  | S n', S k' => binomial n' k' + binomial n' k
  end.

(** * Facts: machine integers *)

Lemma to_uint32_range z : 0 <= to_uint32 z < uint32_modulus.
Proof. apply Z.mod_pos_bound. reflexivity. Qed.

Lemma to_uint32_small z : 0 <= z < uint32_modulus -> to_uint32 z = z.
Proof. apply Z.mod_small. Qed.

Lemma to_size_t_small z : 0 <= z < size_t_modulus -> to_size_t z = z.
Proof. apply Z.mod_small. Qed.

(** * Facts: [CheckedBufferOutputIterator] *)

Import Checked.

Section IteratorFacts.
Context {T : Type}.
Implicit Types (it : CheckedBufferOutputIterator) (m : memory T) (xs : list T).

Lemma check_ok it : _buf it < _end it -> check it = Ok tt.
Proof.
  intros H. unfold check.
  destruct (Z.ltb_spec (_buf it) (_end it)); [reflexivity | lia].
Qed.

Lemma check_throw it :
  _end it <= _buf it -> check it = Throw (out_of_range "index").
Proof.
  intros H. unfold check.
  destruct (Z.ltb_spec (_buf it) (_end it)); [lia | reflexivity].
Qed.

Lemma check_cases it :
  (_buf it < _end it /\ check it = Ok tt) \/
  (_end it <= _buf it /\ check it = Throw (out_of_range "index")).
Proof.
  destruct (Z.lt_ge_cases (_buf it) (_end it)) as [H | H].
  - left. auto using check_ok.
  - right. auto using check_throw.
Qed.

Lemma incr_ok it :
  _buf it < _end it -> incr it = Ok {| _buf := _buf it + 1; _end := _end it |}.
Proof. intros H. unfold incr. by rewrite check_ok. Qed.

Lemma incr_inv it it' :
  incr it = Ok it' ->
  _buf it < _end it /\ _buf it' = _buf it + 1 /\ _end it' = _end it.
Proof.
  unfold incr. destruct (check_cases it) as [[H ->] | [H ->]]; simpl.
  - intros [= <-]. auto.
  - discriminate.
Qed.

Lemma write_advance_ok x it m :
  _buf it < _end it ->
  write_advance x it m =
    (Ok {| _buf := _buf it + 1; _end := _end it |}, <[_buf it := x]> m).
Proof.
  intros H. unfold write_advance, wbind, wlift, post_incr, deref.
  rewrite incr_ok by done. simpl. by rewrite check_ok.
Qed.

Lemma write_advance_throw x it m :
  _end it <= _buf it ->
  write_advance x it m = (Throw (out_of_range "index"), m).
Proof.
  intros H. unfold write_advance, wbind, wlift, post_incr, incr.
  by rewrite check_throw.
Qed.

(** Both spellings of a write step have the same outcome and the same
    effect on the storage. *)
Lemma write_then_incr_advance x it m :
  write_then_incr x it m = write_advance x it m.
Proof.
  destruct (Z.lt_ge_cases (_buf it) (_end it)) as [H | H].
  - rewrite write_advance_ok by done.
    unfold write_then_incr, wbind, wlift, deref, store.
    rewrite check_ok by done. simpl. by rewrite incr_ok.
  - rewrite write_advance_throw by done.
    unfold write_then_incr, wbind, wlift, deref. by rewrite check_throw.
Qed.

(** Writing [xs] through an iterator with room for all of it. *)
Lemma write_all_fits xs : forall it m,
  _buf it + Z.of_nat (length xs) <= _end it ->
  exists m',
    write_all xs it m =
      (Ok {| _buf := _buf it + Z.of_nat (length xs); _end := _end it |}, m') /\
    buffer_holds m' (_buf it) xs /\
    same_outside m m' (_buf it) (Z.of_nat (length xs)).
Proof.
  induction xs as [| x xs IH]; intros it m Hfit.
  - exists m. simpl. rewrite Z.add_0_r. destruct it; simpl.
    split; [reflexivity |]. split.
    + intros i Hi. simpl in Hi. lia.
    + intros a _. reflexivity.
  - simpl length in *. simpl write_all. unfold wbind.
    rewrite write_advance_ok by lia.
    destruct (IH {| _buf := _buf it + 1; _end := _end it |}
                 (<[_buf it := x]> m)) as (m' & Hrun & Hbuf & Hout).
    { simpl. lia. }
    simpl in Hrun, Hbuf, Hout. exists m'. split; [| split].
    + rewrite Hrun. do 2 f_equal. f_equal. lia.
    + intros [| i] Hi.
      * rewrite Z.add_0_r. simpl.
        rewrite Hout by lia. apply lookup_insert_eq.
      * simpl. replace (_buf it + Z.of_nat (S i))
          with (_buf it + 1 + Z.of_nat i) by lia.
        apply Hbuf. simpl in Hi. lia.
    + intros a Ha. rewrite Hout by lia. apply lookup_insert_ne. lia.
Qed.

Lemma advance_fits (k : nat) : forall it,
  _buf it + Z.of_nat k <= _end it ->
  advance k it = Ok {| _buf := _buf it + Z.of_nat k; _end := _end it |}.
Proof.
  induction k as [| k IH]; intros it Hfit.
  - simpl. rewrite Z.add_0_r. by destruct it.
  - simpl advance. rewrite incr_ok by lia. simpl.
    rewrite IH by (simpl; lia). simpl. do 2 f_equal. lia.
Qed.


Lemma reachable_bounds buf n it :
  0 <= n -> reachable buf n it ->
  _end it = buf + n /\ buf <= _buf it <= _end it.
Proof.
  intros Hn Hr. induction Hr as [| it it' Hr IH Hinc].
  - simpl. lia.
  - apply incr_inv in Hinc. lia.
Qed.

Lemma advance_reachable buf n (k : nat) : forall it it',
  reachable buf n it -> advance k it = Ok it' -> reachable buf n it'.
Proof.
  induction k as [| k IH]; intros it it' Hr Hadv.
  - simpl in Hadv. by injection Hadv as <-.
  - simpl in Hadv. destruct (incr it) as [it1 |] eqn:Hinc; [| discriminate].
    simpl in Hadv. eapply IH; [| exact Hadv].
    eapply reachable_incr; eauto.
Qed.

Lemma remaining_exact it :
  0 <= _end it - _buf it < size_t_modulus ->
  remaining it = _end it - _buf it.
Proof. intros H. unfold remaining. by apply to_size_t_small. Qed.

(** C8. Through an iterator constructed over a buffer of capacity [n], any
    [length xs <= n] write-and-advance steps succeed: they fill the first
    cells of the buffer with [xs] in order and touch no cell outside them.
    When [xs] has exactly [n] elements, the next write attempt, in either
    spelling, throws [std::out_of_range] and leaves the storage as the
    [n] writes made it; while fewer than [n] elements were written the
    next write does not throw. *)
Theorem checked_iterator_overflow_at_capacity
    (buf n : Z) (xs : list T) (x : T) (m : memory T) :
  Z.of_nat (length xs) <= n ->
  exists it' m',
    write_all xs (construct buf n) m = (Ok it', m') /\
    buffer_holds m' buf xs /\
    same_outside m m' buf (Z.of_nat (length xs)) /\
    (Z.of_nat (length xs) = n ->
       write_advance x it' m' = (Throw (out_of_range "index"), m') /\
       write_then_incr x it' m' = (Throw (out_of_range "index"), m')) /\
    (Z.of_nat (length xs) < n ->
       exists it'', write_advance x it' m' = (Ok it'', <[_buf it' := x]> m') /\
                    _buf it' = buf + Z.of_nat (length xs)).
Proof.
  intros Hlen.
  destruct (write_all_fits xs (construct buf n) m) as (m' & Hrun & Hbuf & Hout).
  { simpl. lia. }
  simpl in Hrun, Hbuf, Hout.
  eexists _, m'. split; [exact Hrun |]. split; [exact Hbuf |].
  split; [exact Hout |]. split.
  - intros Hfull. rewrite write_then_incr_advance.
    split; apply write_advance_throw; simpl; lia.
  - intros Hroom. eexists. split; [| reflexivity].
    rewrite write_advance_ok by (simpl; lia). reflexivity.
Qed.


End IteratorFacts.

(** Capacity 3: three writes succeed, the fourth throws. *)
Lemma checked_iterator_overflow_witness :
  Z.of_nat (length [7; 8; 9]) <= 3 /\
  exists it' m',
    write_all [7; 8; 9] (construct 100 3) (∅ : memory Z) = (Ok it', m') /\
    buffer_holds m' 100 [7; 8; 9] /\
    write_advance 4 it' m' = (Throw (out_of_range "index"), m').
Proof.
  split; [simpl; lia |].
  destruct (checked_iterator_overflow_at_capacity 100 3 [7; 8; 9] 4 ∅)
    as (it' & m' & Hrun & Hbuf & _ & Hfull & _); [simpl; lia |].
  exists it', m'. split; [exact Hrun |]. split; [exact Hbuf |].
  apply Hfull. reflexivity.
Defined.


(** ** More facts: copying through a [CheckedBufferOutputIterator] *)

Section IteratorCopies.
Context {T : Type}.
Implicit Types (it : CheckedBufferOutputIterator) (m : memory T) (xs : list T).

(** Copying more elements than there is room for: the cells up to the end
    of the buffer are filled, then the copy throws. *)
Lemma write_all_overflows xs : forall it m,
  _buf it <= _end it < _buf it + Z.of_nat (length xs) ->
  exists m',
    write_all xs it m = (Throw (out_of_range "index"), m') /\
    buffer_holds m' (_buf it) (take (Z.to_nat (_end it - _buf it)) xs) /\
    same_outside m m' (_buf it) (_end it - _buf it).
Proof.
  induction xs as [| x xs IH]; intros it m Hover.
  - simpl in Hover. lia.
  - simpl length in Hover. simpl write_all. unfold wbind.
    destruct (Z.lt_ge_cases (_buf it) (_end it)) as [Hroom | Hfull].
    + rewrite write_advance_ok by done.
      destruct (IH {| _buf := _buf it + 1; _end := _end it |}
                   (<[_buf it := x]> m)) as (m' & Hrun & Hbuf & Hout).
      { simpl. lia. }
      simpl in Hrun, Hbuf, Hout. exists m'. split; [exact Hrun |].
      replace (Z.to_nat (_end it - _buf it))
        with (S (Z.to_nat (_end it - (_buf it + 1)))) by lia.
      rewrite firstn_cons. split.
      * intros [| i] Hi.
        -- rewrite Z.add_0_r. simpl. rewrite Hout by lia.
           apply lookup_insert_eq.
        -- simpl. replace (_buf it + Z.of_nat (S i))
             with (_buf it + 1 + Z.of_nat i) by lia.
           apply Hbuf. simpl in Hi. lia.
      * intros a Ha. rewrite Hout by lia. apply lookup_insert_ne. lia.
    + rewrite write_advance_throw by done. exists m.
      split; [reflexivity |].
      replace (Z.to_nat (_end it - _buf it)) with 0%nat by lia.
      split; [intros i Hi; simpl in Hi; lia | by intros a _].
Qed.

(** X1. Copying a sequence that is longer than the capacity [n] of the
    buffer throws [std::out_of_range]; when it throws, the first [n]
    elements of the sequence are in the buffer, in order, and no cell
    outside the buffer has been written. *)
Theorem checked_iterator_copy_overflow (buf n : Z) xs m :
  0 <= n < Z.of_nat (length xs) ->
  exists m',
    write_all xs (construct buf n) m = (Throw (out_of_range "index"), m') /\
    buffer_holds m' buf (take (Z.to_nat n) xs) /\
    same_outside m m' buf n.
Proof.
  intros Hn.
  destruct (write_all_overflows xs (construct buf n) m)
    as (m' & Hrun & Hbuf & Hout); [simpl; lia |].
  simpl in Hbuf, Hout. replace (buf + n - buf) with n in * by lia.
  eauto.
Qed.

(** X2. [remaining()] is the guard against the failure: in every state an
    iterator over a buffer of capacity [n] can be in, a copy of at most
    [remaining()] elements succeeds and lowers [remaining()] by the number
    of elements written, and a copy of more than [remaining()] elements
    throws. *)
Theorem checked_iterator_remaining_guards (buf n : Z) it xs m :
  0 <= n < size_t_modulus -> reachable buf n it ->
  (Z.of_nat (length xs) <= remaining it ->
     exists it' m',
       write_all xs it m = (Ok it', m') /\
       reachable buf n it' /\
       remaining it' = remaining it - Z.of_nat (length xs)) /\
  (remaining it < Z.of_nat (length xs) ->
     exists m', write_all xs it m = (Throw (out_of_range "index"), m')).
Proof.
  intros Hn Hr.
  destruct (reachable_bounds buf n it) as [He Hb]; [lia | done |].
  rewrite remaining_exact by lia. split.
  - intros Hfit.
    destruct (write_all_fits xs it m) as (m' & Hrun & _); [lia |].
    eexists _, m'. split; [exact Hrun |]. split.
    + eapply (advance_reachable buf n (length xs)); [exact Hr |].
      apply advance_fits. lia.
    + rewrite remaining_exact; simpl; lia.
  - intros Hover.
    destruct (write_all_overflows xs it m) as (m' & Hrun & _); [lia |].
    eauto.
Qed.

End IteratorCopies.

Lemma checked_iterator_copy_overflow_witness :
  0 <= 2 < Z.of_nat (length [7; 8; 9]) /\
  exists m',
    write_all [7; 8; 9] (construct 100 2) (∅ : memory Z)
    = (Throw (out_of_range "index"), m') /\
    buffer_holds m' 100 [7; 8] /\
    same_outside ∅ m' 100 2.
Proof.
  split; [simpl; lia |].
  apply (checked_iterator_copy_overflow 100 2 [7; 8; 9] ∅). simpl. lia.
Defined.

Lemma checked_iterator_remaining_guards_witness :
  0 <= 3 < size_t_modulus /\
  reachable 100 3 (construct 100 3) /\
  Z.of_nat (length [7; 8]) <= remaining (construct 100 3) /\
  exists it' m',
    write_all [7; 8] (construct 100 3) (∅ : memory Z) = (Ok it', m') /\
    reachable 100 3 it' /\
    remaining it' = remaining (construct 100 3) - Z.of_nat (length [7; 8]).
Proof.
  assert (Hn : 0 <= 3 < size_t_modulus) by (unfold size_t_modulus; lia).
  assert (Hr : reachable 100 3 (construct 100 3)) by constructor.
  assert (Hfit : Z.of_nat (length [7; 8]) <= remaining (construct 100 3))
    by (vm_compute; discriminate).
  split; [exact Hn |]. split; [exact Hr |]. split; [exact Hfit |].
  exact (proj1 (checked_iterator_remaining_guards 100 3 (construct 100 3)
                  [7; 8] ∅ Hn Hr) Hfit).
Defined.

(** * Facts: computations over the random source *)

Import Random.

(** Expose the calls of a computation written with the monadic notation. *)
Ltac rand_calls :=
  unfold mbind, Rand_bind, urand, urandweighted; cbn [bind].

Create HintDb rand.
#[local] Hint Constructors Rand_equiv : rand.

Lemma weight_values_length ws qs :
  weight_values ws = Some qs -> length qs = length ws.
Proof.
  unfold weight_values. intros Hqs.
  apply bind_Some in Hqs as (qs' & Hm & Hd).
  case_bool_decide; [| done]. injection Hd as ->.
  symmetry. by eapply length_mapM.
Qed.

Lemma weight_values_lookup ws qs i q :
  weight_values ws = Some qs -> qs !! i = Some q -> (i < length ws)%nat.
Proof.
  intros Hqs Hi. rewrite <- (weight_values_length ws qs) by done.
  by eapply lookup_lt_Some.
Qed.

Section RandFacts.
Context {A : Type}.
Implicit Types (t : Rand A) (P Q : A -> Prop) (E : A -> bool).

Lemma Rand_equiv_refl t : Rand_equiv t t.
Proof. induction t; constructor; auto. Qed.

Lemma Rand_equiv_sym t1 t2 : Rand_equiv t1 t2 -> Rand_equiv t2 t1.
Proof. induction 1; constructor; auto. Qed.

Lemma Rand_equiv_trans t1 t2 t3 :
  Rand_equiv t1 t2 -> Rand_equiv t2 t3 -> Rand_equiv t1 t3.
Proof.
  intros H12. revert t3.
  induction H12 as [a | | lo hi k1 k2 Hk IH | ws k1 k2 Hk IH];
    intros t3 H23; inversion H23; subst; constructor; auto.
Qed.

Lemma returns_mono t P Q :
  (forall a, P a -> Q a) -> returns t P -> returns t Q.
Proof.
  intros HPQ. induction t as [a | | lo hi k IH | ws k IH]; simpl; auto.
  - intros [Hlo Hk]. split; [done |]. intros v Hv. apply IH, Hk, Hv.
  - intros [Hws Hk]. split; [done |]. intros i Hi. apply IH, Hk, Hi.
Qed.

Lemma outcomes_mono t P Q :
  (forall a, P a -> Q a) -> outcomes t P -> outcomes t Q.
Proof.
  intros HPQ. induction t as [a | | lo hi k IH | ws k IH]; simpl; auto.
Qed.

Lemma returns_outcomes t P : returns t P -> outcomes t P.
Proof.
  induction t as [a | | lo hi k IH | ws k IH]; simpl; auto.
  - intros [_ Hk] v Hv. apply IH, Hk, Hv.
  - intros [_ Hk] i Hi. apply IH, Hk, Hi.
Qed.

Lemma returns_and t P Q :
  returns t P -> outcomes t Q -> returns t (fun a => P a /\ Q a).
Proof.
  induction t as [a | | lo hi k IH | ws k IH]; simpl; auto.
  - intros [Hlo Hk] Ho. split; [done |]. intros v Hv. apply IH; auto.
  - intros [Hws Hk] Ho. split; [done |]. intros i Hi. apply IH; auto.
Qed.

Lemma returns_equiv t1 t2 P :
  Rand_equiv t1 t2 -> returns t1 P -> returns t2 P.
Proof.
  induction 1 as [a | | lo hi k1 k2 Hk IH | ws k1 k2 Hk IH]; simpl; auto.
  - intros [Hlo H1]. split; [done |]. intros v Hv. apply IH; auto.
  - intros [Hws H1]. split; [done |]. intros i Hi. apply IH; auto.
Qed.

Lemma outcomes_equiv t1 t2 P :
  Rand_equiv t1 t2 -> outcomes t1 P -> outcomes t2 P.
Proof.
  induction 1 as [a | | lo hi k1 k2 Hk IH | ws k1 k2 Hk IH]; simpl; auto.
Qed.

Lemma Qcsum_cons (q : Qc) (qs : list Qc) : Qcsum (q :: qs) = (q + Qcsum qs)%Qc.
Proof. reflexivity. Qed.

Lemma Qcsum_app (qs1 qs2 : list Qc) :
  Qcsum (qs1 ++ qs2) = (Qcsum qs1 + Qcsum qs2)%Qc.
Proof.
  induction qs1 as [| q qs1 IH]; simpl app.
  - unfold Qcsum at 2. simpl. ring.
  - rewrite !Qcsum_cons, IH. ring.
Qed.

Lemma Qcsum_fmap_ext {X} (f g : X -> Qc) (l : list X) :
  (forall x, x ∈ l -> f x = g x) -> Qcsum (f <$> l) = Qcsum (g <$> l).
Proof.
  induction l as [| x l IH]; intros Hfg; [done |].
  rewrite !fmap_cons, !Qcsum_cons. rewrite Hfg by left. rewrite IH; [done |].
  intros y Hy. apply Hfg. by right.
Qed.

Lemma Qcsum_imap_ext {X} (f g : nat -> X -> Qc) (l : list X) :
  (forall i x, l !! i = Some x -> f i x = g i x) ->
  Qcsum (imap f l) = Qcsum (imap g l).
Proof.
  revert f g. induction l as [| x l IH]; intros f g Hfg; [done |].
  rewrite !imap_cons, !Qcsum_cons.
  rewrite (Hfg 0%nat x) by done. f_equal.
  apply IH. intros i y Hi. apply (Hfg (S i)). done.
Qed.

Lemma prob_equiv t1 t2 E : Rand_equiv t1 t2 -> prob t1 E = prob t2 E.
Proof.
  induction 1 as [a | | lo hi k1 k2 Hk IH | ws k1 k2 Hk IH]; simpl; auto.
  - f_equal. apply Qcsum_fmap_ext. intros v Hv. apply IH.
    apply elem_of_seqZ in Hv. lia.
  - destruct (weight_values ws) as [qs |] eqn:Hqs; [| done].
    apply Qcsum_imap_ext. intros i q Hi. f_equal. apply IH.
    by eapply weight_values_lookup.
Qed.

Lemma Qcsum_zero {X} (f : X -> Qc) (l : list X) :
  (forall x, x ∈ l -> f x = 0%Qc) -> Qcsum (f <$> l) = 0%Qc.
Proof.
  induction l as [| x l IH]; intros Hf; [done |].
  rewrite fmap_cons, Qcsum_cons. rewrite Hf by left. rewrite IH; [ring |].
  intros y Hy. apply Hf. by right.
Qed.

Lemma Qcsum_imap_zero {X} (f : nat -> X -> Qc) (l : list X) :
  (forall i x, l !! i = Some x -> f i x = 0%Qc) -> Qcsum (imap f l) = 0%Qc.
Proof.
  revert f. induction l as [| x l IH]; intros f Hf; [done |].
  rewrite imap_cons, Qcsum_cons.
  rewrite (Hf 0%nat x) by done. rewrite IH; [ring |].
  intros i y Hi. apply (Hf (S i)). done.
Qed.

(** An event no result of [t] lies in has probability zero. *)
Lemma prob_impossible t P E :
  outcomes t P -> (forall a, P a -> E a = false) -> prob t E = 0%Qc.
Proof.
  intros Ho HPE. induction t as [a | | lo hi k IH | ws k IH]; simpl in *.
  - by rewrite HPE.
  - done.
  - rewrite Qcsum_zero; [by unfold Qcdiv; ring |].
    intros v Hv. apply IH, Ho. apply elem_of_seqZ in Hv. lia.
  - destruct (weight_values ws) as [qs |] eqn:Hqs; [| done].
    apply Qcsum_imap_zero. intros i q Hi. rewrite IH; [ring |].
    apply Ho. by eapply weight_values_lookup.
Qed.

End RandFacts.

#[local] Hint Resolve Rand_equiv_refl : rand.

Section BindFacts.
Context {A B : Type}.
Implicit Types (t : Rand A) (f g : A -> Rand B).

Lemma returns_bind t f (P : B -> Prop) :
  returns t (fun a => returns (f a) P) -> returns (bind t f) P.
Proof.
  induction t as [a | | lo hi k IH | ws k IH]; simpl; auto.
  - intros [Hlo Hk]. split; [done |]. intros v Hv. apply IH, Hk, Hv.
  - intros [Hws Hk]. split; [done |]. intros i Hi. apply IH, Hk, Hi.
Qed.

Lemma outcomes_bind t f (P : B -> Prop) :
  outcomes t (fun a => outcomes (f a) P) -> outcomes (bind t f) P.
Proof.
  induction t as [a | | lo hi k IH | ws k IH]; simpl; auto.
Qed.

Lemma Rand_equiv_bind t1 t2 f g :
  Rand_equiv t1 t2 -> (forall a, Rand_equiv (f a) (g a)) ->
  Rand_equiv (bind t1 f) (bind t2 g).
Proof.
  intros Ht Hfg.
  induction Ht as [a | | lo hi k1 k2 Hk IH | ws k1 k2 Hk IH]; simpl;
    auto; constructor; auto.
Qed.

(** The probability of an event after a deterministic post-processing
    step is the probability of its preimage. *)
Lemma prob_bind_Ret t (h : A -> B) (E : B -> bool) :
  prob (bind t (fun a => Ret (h a))) E = prob t (fun a => E (h a)).
Proof.
  induction t as [a | | lo hi k IH | ws k IH]; simpl; auto.
  - f_equal. apply Qcsum_fmap_ext. auto.
  - destruct (weight_values ws); [| done].
    apply Qcsum_imap_ext. intros i q _. by rewrite IH.
Qed.

End BindFacts.

Lemma bind_assoc_equiv {A B C} (t : Rand A) (f : A -> Rand B) (g : B -> Rand C) :
  Rand_equiv (bind (bind t f) g) (bind t (fun a => bind (f a) g)).
Proof. induction t; simpl; auto with rand. Qed.

Lemma prob_ext {A} (t : Rand A) (E1 E2 : A -> bool) :
  (forall a, E1 a = E2 a) -> prob t E1 = prob t E2.
Proof.
  intros HE. induction t as [a | | lo hi k IH | ws k IH]; simpl; auto.
  - by rewrite HE.
  - f_equal. apply Qcsum_fmap_ext. auto.
  - destruct (weight_values ws); [| done].
    apply Qcsum_imap_ext. intros i q _. by rewrite IH.
Qed.

Lemma outcomes_True {A} (t : Rand A) : outcomes t (fun _ => True).
Proof. induction t; simpl; auto. Qed.

Lemma prob_never {A} (t : Rand A) (E : A -> bool) :
  (forall a, E a = false) -> prob t E = 0%Qc.
Proof. intros HE. eapply prob_impossible; [apply outcomes_True | auto]. Qed.

Lemma Qcsum_const {X} (f : X -> Qc) (l : list X) (c : Qc) :
  (forall x, x ∈ l -> f x = c) ->
  Qcsum (f <$> l) = (Qc_of_Z (Z.of_nat (length l)) * c)%Qc.
Proof.
  induction l as [| x l IH]; intros Hf.
  - change (Qcsum [] = (Qc_of_Z 0 * c)%Qc). rewrite Z2Qc_inj_0.
    unfold Qcsum. simpl. ring.
  - rewrite fmap_cons, Qcsum_cons, Hf by left.
    rewrite IH by (intros y Hy; apply Hf; by right).
    simpl length. rewrite Nat2Z.inj_succ, <- Z.add_1_r, Z2Qc_inj_add, Z2Qc_inj_1.
    ring.
Qed.

(** [returns] speaks about every execution with an engine that keeps the
    contract of the random source. *)
Lemma returns_run (e : RandomEngine) {A} (t : Rand A) (P : A -> Prop) :
  engine_contract e -> returns t P ->
  forall s, exists a s', run e t s = Some (a, s') /\ P a.
Proof.
  intros [Hu Hw]. induction t as [a | | lo hi k IH | ws k IH]; simpl.
  - intros HP s. eauto.
  - done.
  - intros [Hlo Hk] s. specialize (Hu lo hi s Hlo).
    destruct (engine_urand e lo hi s) as [v s']. simpl in Hu.
    apply IH, Hk, Hu.
  - intros [Hws Hk] s. specialize (Hw ws s Hws).
    destruct (engine_urandweighted e ws s) as [i s']. simpl in Hw.
    apply IH, Hk, Hw.
Qed.

Lemma Qcsum_fmap_scale (q : Qc) (qs : list Qc) :
  Qcsum ((fun x => x / q)%Qc <$> qs) = (Qcsum qs / q)%Qc.
Proof.
  induction qs as [| x qs IH].
  - change (0%Qc = (0 / q)%Qc). unfold Qcdiv. ring.
  - rewrite fmap_cons, !Qcsum_cons, IH. unfold Qcdiv. ring.
Qed.

Lemma imap_const_fmap {X Y} (f : X -> Y) (l : list X) :
  imap (fun _ => f) l = f <$> l.
Proof.
  induction l as [| x l IH]; [done |]. rewrite imap_cons, fmap_cons.
  f_equal. exact IH.
Qed.

(** A computation that always returns has total probability one. *)
Lemma prob_total {A} (t : Rand A) :
  returns t (fun _ => True) -> prob t (fun _ => true) = 1%Qc.
Proof.
  induction t as [a | | lo hi k IH | ws k IH]; simpl.
  - done.
  - done.
  - intros [Hlo Hk].
    rewrite (Qcsum_const _ _ 1%Qc).
    + rewrite length_seqZ, Z2Nat.id by lia.
      assert (Qc_of_Z (hi - lo + 1) <> 0%Qc).
      { rewrite <- Z2Qc_inj_0. intros ?%Z2Qc_inj. lia. }
      by field.
    + intros v Hv%elem_of_seqZ. apply IH, Hk. lia.
  - intros [[qs Hqs] Hk]. rewrite Hqs.
    rewrite (Qcsum_imap_ext _ (fun _ q => (q / Qcsum qs)%Qc)).
    + rewrite imap_const_fmap, Qcsum_fmap_scale.
      unfold weight_values in Hqs.
      apply bind_Some in Hqs as (qs' & _ & Hd).
      case_bool_decide as Hpos; [| done]. injection Hd as ->.
      assert (Qcsum qs <> 0%Qc) by (intros Hz; rewrite Hz in Hpos; done).
      by field.
    + intros i q Hi. rewrite IH; [ring |].
      apply Hk. by eapply weight_values_lookup.
Qed.

Lemma weight_values_nonempty ws : is_Some (weight_values ws) -> ws <> [].
Proof. intros [qs Hqs] ->. by vm_compute in Hqs. Qed.

Lemma lcg_engine_contract : engine_contract lcg_engine.
Proof.
  split.
  - intros lo hi s Hlo. simpl.
    pose proof (Z.mod_pos_bound s (hi - lo + 1) ltac:(lia)). lia.
  - intros ws s Hws. simpl. apply weight_values_nonempty in Hws.
    assert (0 < Z.of_nat (length ws)) by (destruct ws; [done | simpl; lia]).
    pose proof (Z.mod_pos_bound s (Z.of_nat (length ws)) ltac:(lia)). lia.
Qed.

(** * Facts: [RandomResize] *)

Import Containers.

(** A uniform draw in [1..n] compared with a threshold [m]: the branch
    taken when the draw is at most [m] has weight [m / n]. *)
Lemma prob_urand_threshold {A} (n m : Z) (k : Z -> Rand A) (E : A -> bool)
    (a b : Qc) :
  0 <= m <= n ->
  (forall v, 1 <= v <= m -> prob (k v) E = a) ->
  (forall v, m < v <= n -> prob (k v) E = b) ->
  prob (Urand 1 n k) E =
    ((Qc_of_Z m * a + Qc_of_Z (n - m) * b) / Qc_of_Z n)%Qc.
Proof.
  intros Hmn Ha Hb. simpl. replace (n - 1 + 1) with n by lia.
  f_equal. replace n with (m + (n - m)) at 1 by lia.
  rewrite seqZ_app, fmap_app, Qcsum_app by lia.
  rewrite (Qcsum_const _ _ a), (Qcsum_const _ _ b).
  - rewrite !length_seqZ, !Z2Nat.id by lia. reflexivity.
  - intros v Hv. apply elem_of_seqZ in Hv. apply Hb. lia.
  - intros v Hv. apply elem_of_seqZ in Hv. apply Ha. lia.
Qed.

(** *** Binomial coefficients *)

Lemma binomial_0_r n : binomial n 0 = 1%nat.
Proof. by destruct n. Qed.

Lemma binomial_gt n : forall k, (n < k)%nat -> binomial n k = 0%nat.
Proof.
  induction n as [| n IH]; intros [| k] Hk; try lia; simpl; [done |].
  rewrite !IH by lia. done.
Qed.

Lemma binomial_1_r n : binomial n 1 = n.
Proof.
  induction n as [| n IH]; [done |].
  simpl. rewrite binomial_0_r, IH. done.
Qed.

Lemma binomial_pos n : forall k, (k <= n)%nat -> (0 < binomial n k)%nat.
Proof.
  induction n as [| n IH]; intros [| k] Hk; simpl; try lia.
  specialize (IH k ltac:(lia)). lia.
Qed.

Lemma binomial_succ n k :
  binomial (S n) (S k) = (binomial n k + binomial n (S k))%nat.
Proof. reflexivity. Qed.

(** [(k+1) * C(n+1, k+1) = (n+1) * C(n, k)] *)
Lemma binomial_absorb n : forall k,
  (S k * binomial (S n) (S k) = S n * binomial n k)%nat.
Proof.
  induction n as [| n IH]; intros k.
  - destruct k as [| k]; [done |]. rewrite binomial_succ.
    rewrite !(binomial_gt 0) by lia. lia.
  - rewrite (binomial_succ (S n)). destruct k as [| k].
    + rewrite binomial_0_r, binomial_1_r. lia.
    + pose proof (IH (S k)) as IH1. pose proof (IH k) as IH2.
      rewrite (binomial_succ n k) in *.
      set (X := (binomial n k + binomial n (S k))%nat) in *.
      set (Y := binomial (S n) (S (S k))) in *. nia.
Qed.

(** [(n+1-k) * C(n+1, k) = (n+1) * C(n, k)] *)
Lemma binomial_absorb_skip n k :
  (k <= n)%nat ->
  ((S n - k) * binomial (S n) k = S n * binomial n k)%nat.
Proof.
  intros Hk. destruct k as [| k].
  - rewrite !binomial_0_r. lia.
  - pose proof (binomial_absorb n k) as Ha.
    rewrite binomial_succ in *. destruct n as [| n]; [lia |].
    pose proof (binomial_absorb n k) as Hb. nia.
Qed.

Lemma Qc_of_Z_nonzero z : z <> 0 -> Qc_of_Z z <> 0%Qc.
Proof. intros Hz. rewrite <- Z2Qc_inj_0. by intros ?%Z2Qc_inj. Qed.

Lemma Qc_of_Z_nonzero_inv z : z <> 0 -> (1 / Qc_of_Z z)%Qc <> 0%Qc.
Proof.
  intros Hz H0. apply Qc_of_Z_nonzero in Hz.
  assert (1 / Qc_of_Z z * Qc_of_Z z = 1)%Qc as H1 by (by field).
  rewrite H0 in H1. by rewrite Qcmult_0_l in H1.
Qed.

(** The arithmetic of one step of the uniformity argument. *)
Lemma Qc_step_ratio (m c1 n c2 : Z) :
  n <> 0 -> c1 <> 0 -> c2 <> 0 -> m * c2 = n * c1 ->
  (Qc_of_Z m * (1 / Qc_of_Z c1) / Qc_of_Z n = 1 / Qc_of_Z c2)%Qc.
Proof.
  intros Hn H1 H2 Heq.
  assert (Qc_of_Z m * Qc_of_Z c2 = Qc_of_Z n * Qc_of_Z c1)%Qc as HQ
    by (rewrite <- !Z2Qc_inj_mul; congruence).
  apply Qc_of_Z_nonzero in Hn, H1, H2.
  field_simplify_eq; [| auto..].
  rewrite HQ. ring.
Qed.

Section ResizeFacts.
Context {T : Type}.
Implicit Types (c l : list T).

Lemma next_in_range c it :
  (it < length c)%nat -> next c it = Ret (S it).
Proof. intros H. unfold next. by rewrite bool_decide_true. Qed.

Lemma deref_lookup c it x : c !! it = Some x -> deref c it = Ret x.
Proof. intros H. unfold deref. by rewrite H. Qed.

(** One iteration of the loop when the element at [curIt] is kept. *)
Lemma RandomResize_move_slot c keepIt curIt x :
  (keepIt <= curIt)%nat -> c !! curIt = Some x ->
  exists c',
    (if bool_decide (keepIt ≠ curIt)
     then x ← deref c curIt; Ret (<[keepIt := x]> c)
     else Ret c) = Ret c' /\
    length c' = length c /\
    take (S keepIt) c' = take keepIt c ++ [x] /\
    drop (S curIt) c' = drop (S curIt) c.
Proof.
  intros Hle Hx. assert (curIt < length c)%nat by (by eapply lookup_lt_Some).
  case_bool_decide as Hne.
  - exists (<[keepIt := x]> c). rewrite (deref_lookup _ _ _ Hx).
    split; [reflexivity |]. split; [apply length_insert |]. split.
    + rewrite (take_S_r _ _ x).
      * by rewrite take_insert_ge by lia.
      * apply list_lookup_insert_eq. lia.
    + apply drop_insert_lt. lia.
  - exists c. subst keepIt.
    split; [reflexivity |]. split; [reflexivity |]. split; [| reflexivity].
    by apply take_S_r.
Qed.

Lemma RandomResize_loop_refines (p : nat) : forall c keepIt curIt K,
  (keepIt <= curIt)%nat -> (curIt + p <= length c)%nat ->
  0 <= K < uint32_modulus ->
  Rand_equiv
    (bind (RandomResize_loop p c keepIt curIt K)
          (fun '(c', keepIt') => Ret (take keepIt' c')))
    (bind (reservoir_pass (take p (drop curIt c)) K (Z.of_nat p))
          (fun kept => Ret (take keepIt c ++ kept))).
Proof.
  induction p as [| p IH]; intros c keepIt curIt K Hle Hlen HK.
  - simpl. rewrite app_nil_r. constructor.
  - destruct (lookup_lt_is_Some_2 c curIt) as [x Hx]; [lia |].
    rewrite (drop_S _ _ _ Hx). rewrite firstn_cons.
    cbn [RandomResize_loop reservoir_pass]. rand_calls. constructor. intros v Hv.
    replace (Z.of_nat (S p) - 1) with (Z.of_nat p) by lia.
    destruct (v <=? K) eqn:HvK.
    + apply Z.leb_le in HvK.
      destruct (RandomResize_move_slot c keepIt curIt x Hle Hx)
        as (c' & Hc' & Hlen' & Htake & Hdrop).
      unfold mbind, Rand_bind in Hc'. rewrite Hc'.
      cbn [bind]. rewrite !next_in_range by lia. cbn [bind].
      rewrite to_uint32_small by lia.
      eapply Rand_equiv_trans; [apply IH; lia |].
      rewrite Hdrop, Htake.
      eapply Rand_equiv_trans; [| apply Rand_equiv_sym, bind_assoc_equiv].
      apply Rand_equiv_bind; [apply Rand_equiv_refl |].
      intros kept. cbn [bind]. rewrite <- app_assoc. constructor.
    + rewrite next_in_range by lia. cbn [bind].
      apply IH; lia.
Qed.

Lemma bind_Ret_equiv (t : Rand (list T)) : Rand_equiv (bind t Ret) t.
Proof. induction t; simpl; constructor; auto. Qed.

(** Within the [uint32] range the loop of [RandomResize] is the pass the
    specification describes. *)
Lemma RandomResize_refines c (k : nat) :
  (k < length c)%nat -> Z.of_nat (length c) < uint32_modulus ->
  Rand_equiv (RandomResize c k)
             (reservoir_pass c (Z.of_nat k) (Z.of_nat (length c))).
Proof.
  intros Hk Hn. unfold RandomResize.
  rewrite bool_decide_false by lia. cbv zeta.
  rewrite !to_uint32_small by lia. rewrite Nat2Z.id.
  unfold mbind, Rand_bind.
  eapply Rand_equiv_trans.
  { apply (RandomResize_loop_refines (length c) c 0 0 (Z.of_nat k)); lia. }
  rewrite drop_0, firstn_all. cbn [take]. apply bind_Ret_equiv.
Qed.

(** The pass keeps exactly [remainingToKeep] elements, in order. *)
Lemma reservoir_pass_returns l : forall K : Z,
  0 <= K <= Z.of_nat (length l) ->
  returns (reservoir_pass l K (Z.of_nat (length l)))
          (fun kept => Z.of_nat (length kept) = K /\ sublist kept l).
Proof.
  induction l as [| x l IH]; intros K HK.
  - simpl in *. split; [lia | constructor].
  - cbn [reservoir_pass]. rand_calls. cbn [returns].
    simpl length in *. split; [lia |]. intros v Hv.
    replace (Z.of_nat (S (length l)) - 1) with (Z.of_nat (length l)) by lia.
    destruct (v <=? K) eqn:HvK.
    + apply Z.leb_le in HvK. apply returns_bind.
      eapply returns_mono; [| apply (IH (K - 1)); lia].
      intros kept [Hlen Hsub]. simpl. split; [lia | by constructor].
    + apply Z.leb_gt in HvK.
      eapply returns_mono; [| apply (IH K); lia].
      intros kept [Hlen Hsub]. split; [done | by constructor].
Qed.

(** Whatever the counters are, the pass only produces sublists. *)
Lemma reservoir_pass_outcomes l : forall K P : Z,
  outcomes (reservoir_pass l K P) (fun kept => sublist kept l).
Proof.
  induction l as [| x l IH]; intros K P.
  - simpl. constructor.
  - cbn [reservoir_pass]. rand_calls. cbn [outcomes].
    intros v Hv. destruct (v <=? K).
    + apply outcomes_bind. eapply outcomes_mono; [| apply IH].
      intros kept Hsub. simpl. by constructor.
    + eapply outcomes_mono; [| apply IH].
      intros kept Hsub. by constructor.
Qed.

End ResizeFacts.

(** The pass commutes with renaming the elements: its decisions do not
    depend on them. *)
Lemma reservoir_pass_fmap {T U} (f : T -> U) (l : list T) : forall K P : Z,
  Rand_equiv (reservoir_pass (f <$> l) K P)
             (bind (reservoir_pass l K P) (fun kept => Ret (f <$> kept))).
Proof.
  induction l as [| x l IH]; intros K P.
  - simpl. constructor.
  - rewrite fmap_cons. cbn [reservoir_pass].
    rand_calls. constructor. intros v Hv.
    destruct (v <=? K).
    + eapply Rand_equiv_trans; [| apply Rand_equiv_sym, bind_assoc_equiv].
      eapply Rand_equiv_trans.
      { apply Rand_equiv_bind; [apply IH |]. intros a. apply Rand_equiv_refl. }
      eapply Rand_equiv_trans; [apply bind_assoc_equiv |].
      apply Rand_equiv_bind; [apply Rand_equiv_refl |].
      intros kept. simpl. constructor.
    + apply IH.
Qed.

Lemma Qc_step_ratio_r (m c1 n c2 : Z) :
  n <> 0 -> c1 <> 0 -> c2 <> 0 -> m * c2 = n * c1 ->
  (1 / Qc_of_Z c1 * Qc_of_Z m / Qc_of_Z n = 1 / Qc_of_Z c2)%Qc.
Proof. intros. rewrite (Qcmult_comm (1 / _)). by apply Qc_step_ratio. Qed.

Section Uniformity.
Context {T X : Type} `{EqDecision X}.
(** [key] names the elements: in a container whose elements have distinct
    names, the names of the survivors identify the surviving positions. *)
Variable key : T -> X.

Lemma reservoir_pass_uniform (l : list T) : forall (ks : list X),
  NoDup (key <$> l) -> sublist ks (key <$> l) ->
  prob (reservoir_pass l (Z.of_nat (length ks)) (Z.of_nat (length l)))
       (fun kept => bool_decide (key <$> kept = ks))
  = (1 / Qc_of_Z (Z.of_nat (binomial (length l) (length ks))))%Qc.
Proof.
  induction l as [| x l IH]; intros ks Hnd Hsub.
  - apply sublist_nil_r in Hsub as ->.
    change (1%Qc = (1 / Qc_of_Z 1)%Qc). rewrite Z2Qc_inj_1. by field.
  - rewrite fmap_cons in Hnd, Hsub. apply NoDup_cons in Hnd as [Hx Hnd].
    pose proof (sublist_length _ _ Hsub) as Hlen.
    rewrite length_cons, length_fmap in Hlen.
    assert (Hdrop : forall ks', sublist ks' (key <$> l) ->
              (length ks' <= length l)%nat).
    { intros ks' HS'. apply sublist_length in HS'.
      by rewrite length_fmap in HS'. }
    cbn [reservoir_pass]. rand_calls.
    rewrite length_cons.
    replace (Z.of_nat (S (length l)) - 1) with (Z.of_nat (length l)) by lia.
    assert (Hn : Qc_of_Z (Z.of_nat (S (length l))) <> 0%Qc)
      by (apply Qc_of_Z_nonzero; lia).
    apply sublist_cons_r in Hsub as [Hsub | (ks' & -> & Hsub)].
    + (* the first element is not among the survivors *)
      specialize (Hdrop _ Hsub).
      rewrite (prob_urand_threshold _ (Z.of_nat (length ks)) _ _ 0%Qc
                 (1 / Qc_of_Z (Z.of_nat (binomial (length l) (length ks))))%Qc);
        [| lia | |].
      * rewrite Qcmult_0_r, Qcplus_0_l.
        rewrite Qcmult_comm. apply Qc_step_ratio_r.
        -- lia.
        -- pose proof (binomial_pos (length l) (length ks)). lia.
        -- pose proof (binomial_pos (S (length l)) (length ks)). lia.
        -- rewrite <- Nat2Z.inj_sub, <- !Nat2Z.inj_mul by lia. f_equal.
           by apply binomial_absorb_skip.
      * intros v [_ Hv]. apply Z.leb_le in Hv. rewrite Hv.
        rewrite prob_bind_Ret. apply prob_never. intros kept.
        apply bool_decide_eq_false. rewrite fmap_cons. intros <-.
        apply Hx. eapply sublist_subseteq; [exact Hsub | left].
      * intros v [Hv _]. apply Z.leb_gt in Hv. rewrite Hv. by apply IH.
    + (* the first element is the first survivor *)
      specialize (Hdrop _ Hsub). rewrite length_cons.
      rewrite (prob_urand_threshold _ (Z.of_nat (S (length ks'))) _ _
                 (1 / Qc_of_Z (Z.of_nat (binomial (length l) (length ks'))))%Qc
                 0%Qc); [| lia | |].
      * rewrite Qcmult_0_r, Qcplus_0_r. apply Qc_step_ratio.
        -- lia.
        -- pose proof (binomial_pos (length l) (length ks')). lia.
        -- pose proof (binomial_pos (S (length l)) (S (length ks'))). lia.
        -- rewrite <- !Nat2Z.inj_mul. f_equal. apply binomial_absorb.
      * intros v [_ Hv]. apply Z.leb_le in Hv. rewrite Hv.
        rewrite prob_bind_Ret.
        replace (Z.of_nat (S (length ks')) - 1) with (Z.of_nat (length ks'))
          by lia.
        rewrite <- (IH ks') by done. apply prob_ext. intros kept.
        rewrite fmap_cons. apply bool_decide_ext.
        split; [by intros [= ->] | by intros ->].
      * intros v [Hv _]. apply Z.leb_gt in Hv. rewrite Hv.
        eapply prob_impossible; [apply reservoir_pass_outcomes |].
        intros kept Hk. apply bool_decide_eq_false. intros Heq.
        apply Hx. apply (sublist_subseteq (key <$> kept)).
        -- by apply fmap_sublist.
        -- rewrite Heq. left.
Qed.

End Uniformity.

Section ResizeTheorems.
Context {T : Type}.
Implicit Types (c : list T).

Lemma with_positions_length c : length (with_positions c) = length c.
Proof.
  unfold with_positions. rewrite length_zip, length_seq. lia.
Qed.

Lemma with_positions_fst c : (with_positions c).*1 = seq 0 (length c).
Proof. unfold with_positions. apply fst_zip. by rewrite length_seq. Qed.

Lemma with_positions_snd c : (with_positions c).*2 = c.
Proof. unfold with_positions. apply snd_zip. by rewrite length_seq. Qed.

Lemma RandomResize_no_op c (k : nat) :
  (length c <= k)%nat -> RandomResize c k = Ret c.
Proof. intros H. unfold RandomResize. by rewrite bool_decide_true. Qed.

Lemma RandomResize_returns c (k : nat) :
  (k < length c)%nat -> Z.of_nat (length c) < uint32_modulus ->
  returns (RandomResize c k)
          (fun kept => length kept = k /\ sublist kept c).
Proof.
  intros Hk Hn.
  eapply returns_equiv; [apply Rand_equiv_sym, RandomResize_refines; done |].
  eapply returns_mono; [| apply reservoir_pass_returns; lia].
  intros kept [Hlen Hsub]. split; [lia | done].
Qed.

(** C1 (amended). For a container of fewer than [2^32] elements,
    [RandomResize(container, k)] has no undefined behaviour and leaves
    exactly [min(n, k)] elements, which form a subsequence of the original
    container (every survivor was present, in the original relative
    order) -- on every execution with a random engine that keeps its
    contract.  For a container of any size [n], also [2^32] and more, when
    [n <= k] no draw is made and the container is left as it is, on every
    execution and with any engine. *)
Theorem RandomResize_size_and_order c (k : nat) :
  (Z.of_nat (length c) < uint32_modulus ->
   returns (RandomResize c k)
           (fun kept => length kept = Nat.min (length c) k /\
                        sublist kept c) /\
   (forall e : RandomEngine, engine_contract e ->
    forall s, exists kept s',
      run e (RandomResize c k) s = Some (kept, s') /\
      length kept = Nat.min (length c) k /\ sublist kept c)) /\
  ((length c <= k)%nat ->
   RandomResize c k = Ret c /\
   (forall (e : RandomEngine) s, run e (RandomResize c k) s = Some (c, s))).
Proof.
  split.
  - intros Hn.
    assert (Hret : returns (RandomResize c k)
              (fun kept => length kept = Nat.min (length c) k /\
                           sublist kept c)).
    { destruct (le_lt_dec (length c) k) as [Hle | Hlt].
      - rewrite RandomResize_no_op by done. simpl. split; [lia | done].
      - eapply returns_mono; [| by apply RandomResize_returns].
        intros kept [Hlen Hsub]. split; [lia | done]. }
    split; [exact Hret |].
    intros e He s. by apply returns_run.
  - intros Hle. split; [by apply RandomResize_no_op |].
    intros e s. by rewrite RandomResize_no_op.
Qed.

(** C2 (amended). For [k < n < 2^32], [RandomResize] is the single
    left-to-right pass of the specification ([reservoir_pass]: one draw in
    [1, remainingToProcess] per element, kept iff the draw is at most
    [remainingToKeep]); its run is the projection of its run on the
    container tagged with positions; and under independent uniform draws
    every set of [k] positions survives with probability [1 / C(n, k)],
    any other list of positions with probability [0]. *)
Theorem RandomResize_uniform_subsets c (k : nat) :
  (k < length c)%nat -> Z.of_nat (length c) < uint32_modulus ->
  Rand_equiv (RandomResize c k)
             (reservoir_pass c (Z.of_nat k) (Z.of_nat (length c))) /\
  Rand_equiv (RandomResize c k)
             (bind (RandomResize (with_positions c) k)
                   (fun kept => Ret (kept.*2))) /\
  (forall positions : list nat,
     sublist positions (seq 0 (length c)) -> length positions = k ->
     prob (RandomResize (with_positions c) k)
          (fun kept => bool_decide (kept.*1 = positions))
     = (1 / Qc_of_Z (Z.of_nat (binomial (length c) k)))%Qc) /\
  (forall positions : list nat,
     ~ (sublist positions (seq 0 (length c)) /\ length positions = k) ->
     prob (RandomResize (with_positions c) k)
          (fun kept => bool_decide (kept.*1 = positions)) = 0%Qc).
Proof.
  intros Hk Hn.
  pose proof (with_positions_length c) as Hlen.
  assert (Hpos : Rand_equiv (RandomResize (with_positions c) k)
            (reservoir_pass (with_positions c) (Z.of_nat k)
               (Z.of_nat (length c)))).
  { rewrite <- Hlen. apply RandomResize_refines; lia. }
  split; [by apply RandomResize_refines |]. split; [| split].
  - eapply Rand_equiv_trans; [by apply RandomResize_refines |].
    eapply Rand_equiv_trans;
      [| apply Rand_equiv_bind;
         [apply Rand_equiv_sym, Hpos | intros a; apply Rand_equiv_refl]].
    rewrite <- (with_positions_snd c) at 1. apply reservoir_pass_fmap.
  - intros positions Hsub <-. rewrite (prob_equiv _ _ _ Hpos).
    rewrite <- Hlen. apply reservoir_pass_uniform.
    + rewrite with_positions_fst. apply NoDup_seq.
    + by rewrite with_positions_fst.
  - intros positions Hnot. rewrite (prob_equiv _ _ _ Hpos).
    eapply prob_impossible.
    { apply returns_outcomes. rewrite <- Hlen.
      apply reservoir_pass_returns. lia. }
    intros kept [Hl Hs]. apply bool_decide_eq_false. intros <-.
    apply Hnot. split.
    + rewrite <- with_positions_fst. by apply fmap_sublist.
    + rewrite length_fmap. lia.
Qed.

End ResizeTheorems.

Lemma RandomResize_size_and_order_witness :
  Z.of_nat (length [10; 20; 30; 40]) < uint32_modulus /\
  returns (RandomResize [10; 20; 30; 40] 2)
          (fun kept => length kept = 2%nat /\ sublist kept [10; 20; 30; 40]) /\
  (exists kept s',
    run lcg_engine (RandomResize [10; 20; 30; 40] 2) 2024 = Some (kept, s') /\
    length kept = 2%nat /\ sublist kept [10; 20; 30; 40]) /\
  (length [10; 20; 30; 40] <= 7)%nat /\
  RandomResize [10; 20; 30; 40] 7 = Ret [10; 20; 30; 40] /\
  (length (huge_container tt) <= length (huge_container tt))%nat /\
  RandomResize (huge_container tt) (length (huge_container tt))
  = Ret (huge_container tt) /\
  run lcg_engine (RandomResize (huge_container tt) (length (huge_container tt)))
      2024
  = Some (huge_container tt, 2024).
Proof.
  split; [reflexivity |].
  destruct (RandomResize_size_and_order [10; 20; 30; 40] 2)
    as [Hsmall _].
  destruct (Hsmall eq_refl) as [Hret Hrun].
  split; [exact Hret |].
  split; [exact (Hrun lcg_engine lcg_engine_contract 2024) |].
  assert (Hle : (length [10; 20; 30; 40] <= 7)%nat) by (simpl; lia).
  split; [exact Hle |].
  destruct (RandomResize_size_and_order [10; 20; 30; 40] 7) as [_ Hsame].
  split; [exact (proj1 (Hsame Hle)) |].
  destruct (RandomResize_size_and_order (huge_container tt)
              (length (huge_container tt))) as [_ Hhuge].
  split; [exact (le_n _) |].
  destruct (Hhuge (le_n _)) as [Hret' Hrun'].
  split; [exact Hret' |]. exact (Hrun' lcg_engine 2024).
Defined.

(** Ten elements, three to keep: each of the 120 sets of positions has
    probability [1 / 120]. *)
Lemma RandomResize_uniform_subsets_witness :
  (3 < length [10; 11; 12; 13; 14; 15; 16; 17; 18; 19])%nat /\
  Z.of_nat (length [10; 11; 12; 13; 14; 15; 16; 17; 18; 19])
    < uint32_modulus /\
  prob (RandomResize
          (with_positions [10; 11; 12; 13; 14; 15; 16; 17; 18; 19]) 3)
       (fun kept => bool_decide (kept.*1 = [1; 4; 8]%nat))
  = (1 / Qc_of_Z 120)%Qc.
Proof.
  split; [simpl; lia |]. split; [reflexivity |].
  apply (RandomResize_uniform_subsets
           [10; 11; 12; 13; 14; 15; 16; 17; 18; 19] 3);
    [simpl; lia | reflexivity | | reflexivity].
  simpl.
  repeat first [apply sublist_skip | apply sublist_cons | apply sublist_nil].
Defined.

Lemma huge_container_length {T} (x : T) :
  Z.of_nat (length (huge_container x)) = uint32_modulus.
Proof.
  unfold huge_container. rewrite length_replicate.
  apply Z2Nat.id. unfold uint32_modulus. lia.
Qed.

(** With [2^32] elements the [uint32] counter [elementsToProcess] starts
    at zero: the loop body never runs and everything is erased. *)
Lemma RandomResize_huge {T} (c : list T) (k : nat) :
  Z.of_nat (length c) = uint32_modulus -> (k < length c)%nat ->
  RandomResize c k = Ret [].
Proof.
  intros Hlen Hk. unfold RandomResize.
  rewrite bool_decide_false by lia. cbv zeta.
  rewrite Hlen. change (to_uint32 uint32_modulus) with 0.
  change (Z.to_nat 0) with 0%nat. cbn [RandomResize_loop].
  rand_calls. by rewrite take_0.
Qed.

Lemma RandomResize_size_counterexample :
  RandomResize (huge_container tt) 1 = Ret [] /\
  length (@nil unit) <> Nat.min (length (huge_container tt)) 1.
Proof.
  pose proof (huge_container_length tt) as Hlen.
  unfold uint32_modulus in Hlen.
  split.
  - apply RandomResize_huge; [exact (huge_container_length tt) | lia].
  - change (length (@nil unit)) with 0%nat. lia.
Qed.

Lemma RandomResize_uniform_counterexample :
  (1 < length (huge_container tt))%nat /\
  sublist [0%nat] (seq 0 (length (huge_container tt))) /\
  prob (RandomResize (with_positions (huge_container tt)) 1)
       (fun kept => bool_decide (kept.*1 = [0%nat])) = 0%Qc /\
  (1 / Qc_of_Z (Z.of_nat (binomial (length (huge_container tt)) 1)))%Qc
    <> 0%Qc.
Proof.
  pose proof (huge_container_length tt) as Hlen.
  assert (Hbig : (1 < length (huge_container tt))%nat)
    by (unfold uint32_modulus in Hlen; lia).
  split; [exact Hbig |]. split; [| split].
  - destruct (length (huge_container tt)) as [| n]; [lia |].
    rewrite <- cons_seq. apply sublist_skip, sublist_nil_l.
  - rewrite RandomResize_huge.
    + reflexivity.
    + by rewrite with_positions_length.
    + by rewrite with_positions_length.
  - rewrite binomial_1_r, Hlen. unfold uint32_modulus.
    apply Qc_of_Z_nonzero_inv. lia.
Qed.

(** * Facts: the predicate overload of [RandomResize] and [EraseIf] *)

Section FilterFacts.
Context {T : Type}.
Implicit Types (c : list T) (p : T -> bool).

Lemma copy_if_filter p c : forall copy,
  copy_if c copy p = copy ++ List.filter p c.
Proof.
  unfold copy_if. induction c as [| x c IH]; intros copy; simpl.
  - by rewrite app_nil_r.
  - rewrite IH. destruct (p x); [by rewrite <- app_assoc | done].
Qed.

(** C3. The predicate overload of [RandomResize] replaces the container
    by the elements that satisfy the predicate, in their original order:
    with [k <> 0] it is the plain [RandomResize] applied to that filtered
    sequence with target [k]; with [k = 0] the filtered sequence is returned
    as it is, with no draw and no cap. *)
Theorem RandomResize_predicate_filter c p (k : nat) :
  copy_if c [] p = List.filter p c /\
  (k <> 0%nat ->
     RandomResize_predicate c p k = RandomResize (List.filter p c) k) /\
  (k = 0%nat -> RandomResize_predicate c p k = Ret (List.filter p c)) /\
  returns (RandomResize_predicate c p 0) (fun kept => kept = List.filter p c).
Proof.
  assert (Hcopy : copy_if c [] p = List.filter p c)
    by (by rewrite copy_if_filter).
  unfold RandomResize_predicate. rewrite Hcopy.
  split; [reflexivity |]. split; [| split].
  - intros Hk. by rewrite bool_decide_true.
  - intros ->. by rewrite bool_decide_false by (intros Hne; by apply Hne).
  - by rewrite bool_decide_false by (intros Hne; by apply Hne).
Qed.

Lemma EraseIf_move_loop_spec p (fuel : nat) : forall c wpos rpos,
  (wpos <= rpos <= length c)%nat -> (length c - rpos <= fuel)%nat ->
  exists c' wpos',
    EraseIf_move_loop fuel c p wpos rpos (length c) = Some (c', wpos') /\
    take wpos' c' =
      take wpos c ++ List.filter (fun x => negb (p x)) (drop rpos c).
Proof.
  induction fuel as [| fuel IH]; intros c wpos rpos Hpos Hfuel.
  - assert (rpos = length c) as -> by lia. simpl.
    rewrite bool_decide_true by done. exists c, wpos.
    by rewrite drop_all, app_nil_r.
  - simpl. case_bool_decide as Hend.
    { subst rpos. exists c, wpos. by rewrite drop_all, app_nil_r. }
    destruct (lookup_lt_is_Some_2 c rpos) as [x Hx]; [lia |].
    rewrite Hx. simpl. rewrite (drop_S _ _ _ Hx). simpl List.filter.
    destruct (p x); simpl.
    + apply IH; lia.
    + case_bool_decide as Hne.
      * destruct (lookup_lt_is_Some_2 c wpos) as [y Hy]; [lia |].
        rewrite Hy. simpl.
        set (c' := <[wpos := x]> (<[rpos := y]> c)).
        assert (Hlen : length c' = length c)
          by (unfold c'; by rewrite !length_insert).
        destruct (IH c' (S wpos) (S rpos)) as (c'' & wpos'' & Hrun & Htake);
          [lia | lia |].
        rewrite Hlen in Hrun. exists c'', wpos''. split; [exact Hrun |].
        rewrite Htake. unfold c'.
        rewrite (take_S_r _ _ x)
          by (apply list_lookup_insert_eq; rewrite length_insert; lia).
        rewrite !take_insert_ge by lia.
        rewrite !drop_insert_lt by lia. by rewrite <- app_assoc.
      * subst wpos.
        destruct (IH c (S rpos) (S rpos)) as (c'' & wpos'' & Hrun & Htake);
          [lia | lia |].
        exists c'', wpos''. split; [exact Hrun |].
        rewrite Htake, (take_S_r _ _ x) by done. by rewrite <- app_assoc.
Qed.

Lemma EraseIf_erase_loop_spec p (fuel : nat) : forall c it,
  (it <= length c)%nat -> (length c - it <= fuel)%nat ->
  EraseIf_erase_loop fuel c p it =
    Some (take it c ++ List.filter (fun x => negb (p x)) (drop it c)).
Proof.
  induction fuel as [| fuel IH]; intros c it Hit Hfuel.
  - assert (it = length c) as -> by lia. simpl.
    rewrite bool_decide_true by done.
    by rewrite drop_all, app_nil_r, firstn_all.
  - simpl. case_bool_decide as Hend.
    { subst it. by rewrite drop_all, app_nil_r, firstn_all. }
    destruct (lookup_lt_is_Some_2 c it) as [x Hx]; [lia |].
    rewrite Hx. simpl. rewrite (drop_S _ _ _ Hx). simpl List.filter.
    assert (Hdel : length (delete it c) = pred (length c)).
    { rewrite length_delete by eauto. lia. }
    destruct (p x); simpl.
    + rewrite IH by lia. f_equal. rewrite delete_take_drop.
      assert (Hlt : length (take it c) = it) by (rewrite length_take; lia).
      rewrite take_app_length', drop_app_length' by done. done.
    + rewrite IH by lia. f_equal.
      rewrite (take_S_r _ _ x) by done. by rewrite <- app_assoc.
Qed.

(** C4. Both overloads of [EraseIf] terminate without undefined behaviour
    and leave exactly the elements for which the predicate is false, in
    their original relative order; so both give the same result.  On
    [1, 2, 3, 4, 5, 6] with the predicate "is even" each leaves
    [1, 3, 5]. *)
Theorem EraseIf_stable c p :
  EraseIf_move c p = Some (List.filter (fun x => negb (p x)) c) /\
  EraseIf_erase c p = Some (List.filter (fun x => negb (p x)) c) /\
  EraseIf_move c p = EraseIf_erase c p /\
  EraseIf_move [1; 2; 3; 4; 5; 6] Z.even = Some [1; 3; 5] /\
  EraseIf_erase [1; 2; 3; 4; 5; 6] Z.even = Some [1; 3; 5].
Proof.
  assert (Hmove : EraseIf_move c p
                  = Some (List.filter (fun x => negb (p x)) c)).
  { unfold EraseIf_move.
    destruct (EraseIf_move_loop_spec p (length c) c 0 0)
      as (c' & wpos' & Hrun & Htake); [lia | lia |].
    rewrite Hrun. simpl. f_equal. by rewrite Htake, drop_0. }
  assert (Herase : EraseIf_erase c p
                   = Some (List.filter (fun x => negb (p x)) c)).
  { unfold EraseIf_erase. rewrite EraseIf_erase_loop_spec by lia.
    by rewrite drop_0. }
  split; [exact Hmove |]. split; [exact Herase |].
  split; [by rewrite Hmove, Herase |]. split; reflexivity.
Qed.

End FilterFacts.

Lemma RandomResize_predicate_filter_witness :
  (1 <> 0)%nat /\
  RandomResize_predicate [10; 21; 30; 41] Z.even 1
  = RandomResize [10; 30] 1 /\
  RandomResize_predicate [10; 21; 30; 41] Z.even 0 = Ret [10; 30].
Proof.
  split; [done |].
  destruct (RandomResize_predicate_filter [10; 21; 30; 41] Z.even 1)
    as (_ & Hcap & _).
  destruct (RandomResize_predicate_filter [10; 21; 30; 41] Z.even 0)
    as (_ & _ & Hnocap & _).
  split; [by apply Hcap | by apply Hnocap].
Defined.


(** * Facts: [MultimapErasePair] *)

Section MultimapFacts.
Context {K V : Type} `{EqDecision K} `{EqDecision V}.
Variable less : K -> K -> bool.
Implicit Types (m : list (K * V)) (key : K) (value : V).

(** The loop removes from the range [itr, range_second) the entries whose
    mapped value is [value] and nothing else. *)
Lemma MultimapErasePair_loop_spec value (fuel : nat) : forall m itr hi,
  (itr <= hi <= length m)%nat -> (hi - itr <= fuel)%nat ->
  MultimapErasePair_loop fuel m value itr hi =
    Some (take itr m
          ++ List.filter (other_value value) (take (hi - itr) (drop itr m))
          ++ drop hi m).
Proof.
  induction fuel as [| fuel IH]; intros m itr hi Hpos Hfuel.
  - assert (itr = hi) as -> by lia. simpl.
    rewrite bool_decide_true by done. rewrite Nat.sub_diag. simpl.
    by rewrite take_drop.
  - simpl. case_bool_decide as Hend.
    { subst itr. rewrite Nat.sub_diag. simpl. by rewrite take_drop. }
    destruct (lookup_lt_is_Some_2 m itr) as [e He]; [lia |].
    rewrite He. simpl. rewrite (drop_S _ _ _ He).
    replace (hi - itr)%nat with (S (hi - S itr)) by lia.
    rewrite firstn_cons. simpl List.filter.
    assert (Hlt : length (take itr m) = itr) by (rewrite length_take; lia).
    destruct (decide (e.2 = value)) as [Hval | Hval].
    + replace (other_value value e) with false
        by (unfold other_value; by rewrite bool_decide_true).
      rewrite bool_decide_true by done.
      assert (Hdel : length (delete itr m) = pred (length m))
        by (rewrite length_delete by eauto; lia).
      rewrite IH by lia. f_equal.
      rewrite delete_take_drop.
      rewrite take_app_length' by done.
      rewrite (drop_app_length' _ _ itr) by done.
      replace (pred hi - itr)%nat with (hi - S itr)%nat by lia.
      f_equal. f_equal.
      replace (pred hi) with (itr + (hi - S itr))%nat by lia.
      rewrite drop_app_add' by done. rewrite drop_drop. f_equal. lia.
    + replace (other_value value e) with true
        by (unfold other_value; by rewrite bool_decide_false).
      rewrite bool_decide_false by done.
      rewrite IH by lia. f_equal.
      rewrite (take_S_r _ _ e) by done. by rewrite <- app_assoc.
Qed.

Lemma filter_all {X} (f : X -> bool) (l : list X) :
  (forall i x, l !! i = Some x -> f x = true) -> List.filter f l = l.
Proof.
  induction l as [| x l IH]; intros Hf; simpl; [done |].
  rewrite (Hf 0%nat x) by done. f_equal. apply IH.
  intros i y Hy. by apply (Hf (S i)).
Qed.

Lemma filter_agree {X} (f g : X -> bool) (l : list X) :
  (forall i x, l !! i = Some x -> f x = g x) ->
  List.filter f l = List.filter g l.
Proof.
  induction l as [| x l IH]; intros Hfg; simpl; [done |].
  rewrite (Hfg 0%nat x) by done. rewrite IH; [done |].
  intros i y Hy. by apply (Hfg (S i)).
Qed.

Lemma lower_bound_le_length m key : (lower_bound less m key <= length m)%nat.
Proof. induction m as [| e m IH]; simpl; [lia |]. destruct (less _ _); lia. Qed.

Lemma upper_bound_le_length m key : (upper_bound less m key <= length m)%nat.
Proof. induction m as [| e m IH]; simpl; [lia |]. destruct (less _ _); lia. Qed.

Lemma lower_bound_before m key : forall i e,
  (i < lower_bound less m key)%nat -> m !! i = Some e -> less e.1 key = true.
Proof.
  induction m as [| e0 m IH]; intros i e Hi He; simpl in *; [lia |].
  destruct (less e0.1 key) eqn:Hless; [| lia].
  destruct i as [| i]; simpl in He.
  - by injection He as <-.
  - apply (IH i); [lia | done].
Qed.

Lemma lower_bound_at m key e :
  m !! lower_bound less m key = Some e -> less e.1 key = false.
Proof.
  induction m as [| e0 m IH]; simpl; [done |].
  destruct (less e0.1 key) eqn:Hless; simpl.
  - exact IH.
  - by intros [= <-].
Qed.

Lemma upper_bound_before m key : forall i e,
  (i < upper_bound less m key)%nat -> m !! i = Some e -> less key e.1 = false.
Proof.
  induction m as [| e0 m IH]; intros i e Hi He; simpl in *; [lia |].
  destruct (less key e0.1) eqn:Hless; [lia |].
  destruct i as [| i]; simpl in He.
  - by injection He as <-.
  - apply (IH i); [lia | done].
Qed.

Lemma upper_bound_at m key e :
  m !! upper_bound less m key = Some e -> less key e.1 = true.
Proof.
  induction m as [| e0 m IH]; simpl; [done |].
  destruct (less key e0.1) eqn:Hless; simpl.
  - by intros [= <-].
  - exact IH.
Qed.

(** The comparison is a strict total order on the keys. *)
Hypothesis less_irrefl : forall a, less a a = false.
Hypothesis less_trans :
  forall a b c, less a b = true -> less b c = true -> less a c = true.
Hypothesis less_total :
  forall a b, less a b = false -> less b a = false -> a = b.

Lemma less_asym a b : less a b = true -> less b a = false.
Proof.
  intros Hab. destruct (less b a) eqn:Hba; [| done].
  pose proof (less_trans a b a Hab Hba) as Haa.
  by rewrite less_irrefl in Haa.
Qed.

Lemma lower_le_upper m key :
  (lower_bound less m key <= upper_bound less m key)%nat.
Proof.
  induction m as [| e m IH]; simpl; [lia |].
  destruct (less e.1 key) eqn:Hless; [| lia].
  rewrite (less_asym _ _ Hless). lia.
Qed.

(** In an ordered multimap the equal range of [key] holds exactly the
    entries whose key is [key]. *)
Lemma equal_range_inside m key i e :
  key_ordered less m ->
  (lower_bound less m key <= i < upper_bound less m key)%nat ->
  m !! i = Some e -> e.1 = key.
Proof.
  intros Hord [Hlo Hhi] He.
  pose proof (upper_bound_le_length m key) as Hle.
  destruct (lookup_lt_is_Some_2 m (lower_bound less m key)) as [e0 He0];
    [lia |].
  pose proof (lower_bound_at m key e0 He0) as H1.
  pose proof (upper_bound_before m key (lower_bound less m key) e0
                ltac:(lia) He0) as H2.
  assert (e0.1 = key) as Hkey0 by (by apply less_total).
  apply less_total.
  - destruct (decide (i = lower_bound less m key)) as [-> | Hne].
    + rewrite He0 in He. by injection He as <-.
    + rewrite <- Hkey0. apply (Hord (lower_bound less m key) i); [lia | done..].
  - by apply (upper_bound_before m key i).
Qed.

Lemma equal_range_outside m key i e :
  key_ordered less m ->
  (i < lower_bound less m key \/ upper_bound less m key <= i)%nat ->
  m !! i = Some e -> e.1 <> key.
Proof.
  intros Hord [Hlo | Hhi] He Heq.
  - pose proof (lower_bound_before m key i e Hlo He) as H1.
    rewrite Heq in H1. by rewrite less_irrefl in H1.
  - assert (i < length m)%nat by (by eapply lookup_lt_Some).
    destruct (lookup_lt_is_Some_2 m (upper_bound less m key)) as [e1 He1];
      [lia |].
    pose proof (upper_bound_at m key e1 He1) as H1.
    destruct (decide (i = upper_bound less m key)) as [-> | Hne].
    + rewrite He1 in He. injection He as <-.
      rewrite Heq in H1. by rewrite less_irrefl in H1.
    + pose proof (Hord (upper_bound less m key) i e1 e ltac:(lia) He1 He) as H2.
      rewrite Heq in H2. congruence.
Qed.

(** In an ordered multimap [equal_range] returns the equal range. *)
Lemma equal_range_ordered m key :
  key_ordered less m -> is_equal_range m key (equal_range less m key).
Proof.
  intros Hord. unfold is_equal_range, equal_range. simpl.
  pose proof (lower_le_upper m key). pose proof (upper_bound_le_length m key).
  split; [lia |]. intros i e He. split.
  - intros Hk.
    destruct (decide (lower_bound less m key <= i < upper_bound less m key)%nat)
      as [Hin | Hout]; [done |].
    exfalso. eapply (equal_range_outside m key i e); eauto. lia.
  - intros Hin. by eapply equal_range_inside.
Qed.

(** Run over the equal range of [key], the loop leaves exactly the
    entries that are not the pair. *)
Lemma MultimapErasePair_range_exact m key value range :
  is_equal_range m key range ->
  MultimapErasePair_range m value range
  = Some (List.filter (not_the_pair key value) m).
Proof.
  destruct range as [lo hi]. intros [Hle Hrange]. simpl in Hle, Hrange.
  unfold MultimapErasePair_range. simpl.
  rewrite MultimapErasePair_loop_spec by lia. f_equal.
  assert (Hsplit : m = take lo m ++ take (hi - lo) (drop lo m) ++ drop hi m).
  { rewrite <- (take_drop lo m) at 1. f_equal.
    rewrite <- (take_drop (hi - lo) (drop lo m)) at 1. f_equal.
    rewrite drop_drop. f_equal. lia. }
  rewrite Hsplit at 4. rewrite !List.filter_app. f_equal; [| f_equal].
  - symmetry. apply filter_all. intros i e He.
    apply lookup_take_Some in He as [He Hi].
    unfold not_the_pair. rewrite bool_decide_false; [done |].
    intros [Hk _]. apply (Hrange i e He) in Hk. lia.
  - apply filter_agree. intros i e He.
    apply lookup_take_Some in He as [He Hi]. rewrite lookup_drop in He.
    assert (e.1 = key) as Hk by (apply (Hrange (lo + i)%nat e He); lia).
    unfold other_value, not_the_pair. f_equal.
    apply bool_decide_ext. tauto.
  - symmetry. apply filter_all. intros i e He.
    rewrite lookup_drop in He.
    unfold not_the_pair. rewrite bool_decide_false; [done |].
    intros [Hk _]. apply (Hrange (hi + i)%nat e He) in Hk. lia.
Qed.

(** C7. [MultimapErasePair(multimap, key, value)] terminates and leaves,
    in their order, exactly the entries that are not the pair
    [(key, value)]: every entry equal to the pair is removed, entries with
    the same key and another value or with another key stay.  This holds
    whenever [equal_range] returns the range of the entries whose key is
    [key], as it does on a multimap ordered by a strict total order on
    the keys. *)
Theorem MultimapErasePair_exact m key value :
  (forall range, is_equal_range m key range ->
     MultimapErasePair_range m value range
     = Some (List.filter (not_the_pair key value) m)) /\
  (key_ordered less m ->
     is_equal_range m key (equal_range less m key) /\
     MultimapErasePair less m key value
     = Some (List.filter (not_the_pair key value) m)).
Proof.
  split.
  - intros range. apply MultimapErasePair_range_exact.
  - intros Hord. split; [by apply equal_range_ordered |].
    unfold MultimapErasePair.
    by apply MultimapErasePair_range_exact, equal_range_ordered.
Qed.

End MultimapFacts.

(** The multimap [{(k,v), (k,v), (k,w)}] with [(k,v)] erased is [{(k,w)}]. *)
Lemma MultimapErasePair_exact_witness :
  key_ordered Z.ltb [(1, 10); (1, 10); (1, 20); (2, 10)] /\
  MultimapErasePair Z.ltb [(1, 10); (1, 10); (1, 20)] 1 10 = Some [(1, 20)] /\
  MultimapErasePair Z.ltb [(1, 10); (1, 10); (1, 20); (2, 10)] 1 10
  = Some [(1, 20); (2, 10)].
Proof.
  assert (Hord : key_ordered Z.ltb [(1, 10); (1, 10); (1, 20); (2, 10)]).
  { intros i j e1 e2 Hij H1 H2.
    destruct i as [| [| [| [| i]]]]; simpl in H1; try discriminate;
      injection H1 as <-;
      destruct j as [| [| [| [| j]]]]; simpl in H2; try discriminate;
      try lia; injection H2 as <-; reflexivity. }
  split; [exact Hord |]. split; [reflexivity |].
  assert (Htrans : forall a b c,
            (a <? b) = true -> (b <? c) = true -> (a <? c) = true)
    by (intros a b c Hab%Z.ltb_lt Hbc%Z.ltb_lt; apply Z.ltb_lt; lia).
  assert (Htotal : forall a b, (a <? b) = false -> (b <? a) = false -> a = b)
    by (intros a b Hab%Z.ltb_ge Hba%Z.ltb_ge; lia).
  destruct (MultimapErasePair_exact Z.ltb Z.ltb_irrefl Htrans Htotal
              [(1, 10); (1, 10); (1, 20); (2, 10)] 1 10) as [_ Hex].
  destruct (Hex Hord) as [_ ->]. reflexivity.
Defined.


(** * Facts: the element selectors *)

Section SelectorFacts.
Context {T : Type}.
Implicit Types (c : list T) (p : T -> bool).

Lemma collect_matching_app p rest : forall it acc,
  collect_matching p rest it acc = acc ++ collect_matching p rest it [].
Proof.
  induction rest as [| x rest IH]; intros it acc; simpl.
  - by rewrite app_nil_r.
  - rewrite (IH _ (if p x then acc ++ [it] else acc)).
    rewrite (IH _ (if p x then [] ++ [it] else [])).
    destruct (p x); [by rewrite <- app_assoc | done].
Qed.

Lemma collect_matching_cons p x rest it :
  collect_matching p (x :: rest) it [] =
    (if p x then [it] else []) ++ collect_matching p rest (S it) [].
Proof. simpl. rewrite collect_matching_app. by destruct (p x). Qed.

Lemma collect_matching_elem p rest : forall it i,
  i ∈ collect_matching p rest it [] <->
  exists j x, i = (it + j)%nat /\ rest !! j = Some x /\ p x = true.
Proof.
  induction rest as [| x rest IH]; intros it i.
  - simpl. split; [by intros ?%elem_of_nil | by intros (j & y & _ & ? & _)].
  - rewrite collect_matching_cons, elem_of_app, IH. split.
    + intros [Hi | (j & y & -> & Hj & Hy)].
      * destruct (p x) eqn:Hpx; [| by apply elem_of_nil in Hi].
        apply list_elem_of_singleton in Hi as ->.
        exists 0%nat, x. split; [lia | done].
      * exists (S j), y. split; [lia | done].
    + intros ([| j] & y & -> & Hj & Hy); simpl in Hj.
      * injection Hj as ->. rewrite Hy. left.
        rewrite Nat.add_0_r. by apply list_elem_of_singleton.
      * right. exists j, y. split; [lia | done].
Qed.

Lemma collect_matching_NoDup p rest : forall it,
  NoDup (collect_matching p rest it []).
Proof.
  induction rest as [| x rest IH]; intros it.
  - simpl. constructor.
  - rewrite collect_matching_cons. apply NoDup_app. split; [| split].
    + destruct (p x); [apply NoDup_singleton | constructor].
    + intros i Hi (j & y & -> & _)%collect_matching_elem.
      destruct (p x); [| by apply elem_of_nil in Hi].
      apply list_elem_of_singleton in Hi. lia.
    + apply IH.
Qed.

Lemma collect_matching_length p rest : forall it,
  length (collect_matching p rest it []) = length (List.filter p rest).
Proof.
  induction rest as [| x rest IH]; intros it; [done |].
  rewrite collect_matching_cons, length_app, IH. simpl.
  by destruct (p x).
Qed.

Lemma collect_matching_matches c p i :
  i ∈ collect_matching p c 0 [] <-> matches c p i.
Proof.
  rewrite collect_matching_elem. unfold matches. split.
  - intros (j & x & -> & Hj & Hx). eauto.
  - intros (x & Hi & Hx). exists i, x. eauto.
Qed.

End SelectorFacts.

(** Summing over the indices of a list is summing over its elements. *)
Lemma Qcsum_indices {X} (M : list X) (g : option X -> Qc) :
  Qcsum ((fun v => g (if bool_decide (0 <= v) then M !! Z.to_nat v else None))
           <$> seqZ 0 (Z.of_nat (length M)))
  = Qcsum ((fun y => g (Some y)) <$> M).
Proof.
  revert g. induction M as [| y M IH]; intros g; [done |].
  rewrite length_cons, Nat2Z.inj_succ, seqZ_cons by lia.
  rewrite !fmap_cons, !Qcsum_cons. rewrite bool_decide_true by lia.
  change (Z.to_nat 0) with 0%nat. simpl lookup. f_equal.
  rewrite Z.pred_succ. rewrite <- IH.
  rewrite <- (fmap_add_seqZ 1 0). rewrite <- list_fmap_compose.
  apply Qcsum_fmap_ext. intros v Hv%elem_of_seqZ. simpl.
  rewrite !bool_decide_true by lia.
  replace (Z.to_nat (1 + v)) with (S (Z.to_nat v)) by lia. done.
Qed.

(** In a list without duplicates exactly one element is [i]. *)
Lemma Qcsum_indicator (M : list nat) (i : nat) :
  NoDup M -> i ∈ M ->
  Qcsum ((fun y => if bool_decide (y = i) then 1%Qc else 0%Qc) <$> M) = 1%Qc.
Proof.
  induction M as [| y M IH]; intros Hnd Hi; [by apply elem_of_nil in Hi |].
  apply NoDup_cons in Hnd as [Hy Hnd]. rewrite fmap_cons, Qcsum_cons.
  apply elem_of_cons in Hi as [-> | Hi].
  - rewrite bool_decide_true by done. rewrite Qcsum_zero; [ring |].
    intros z Hz. rewrite bool_decide_false; [done |]. by intros ->.
  - rewrite bool_decide_false by (by intros ->). rewrite IH by done. ring.
Qed.

Lemma Qcsum_indicator_absent (M : list nat) (i : nat) :
  i ∉ M ->
  Qcsum ((fun y => if bool_decide (y = i) then 1%Qc else 0%Qc) <$> M) = 0%Qc.
Proof.
  intros Hi. apply Qcsum_zero. intros z Hz.
  rewrite bool_decide_false; [done |]. by intros ->.
Qed.

Section SelectIfTheorem.
Context {T : Type}.
Implicit Types (c : list T) (p : T -> bool).

Lemma SelectRandomContainerElementIf_unfold c p :
  collect_matching p c 0 [] <> [] ->
  SelectRandomContainerElementIf c p =
    Urand 0 (Z.of_nat (length (collect_matching p c 0 [])) - 1)
      (fun i => match (if bool_decide (0 <= i)
                       then collect_matching p c 0 [] !! Z.to_nat i
                       else None) with
                | Some randomIt => Ret randomIt
                | None => Undef
                end).
Proof.
  intros HM. unfold SelectRandomContainerElementIf.
  by rewrite bool_decide_false by done.
Qed.

Lemma SelectRandomContainerElementIf_prob c p (E : nat -> bool) :
  collect_matching p c 0 [] <> [] ->
  prob (SelectRandomContainerElementIf c p) E =
    (Qcsum ((fun y => if E y then 1%Qc else 0%Qc) <$> collect_matching p c 0 [])
     / Qc_of_Z (Z.of_nat (length (List.filter p c))))%Qc.
Proof.
  intros HM. rewrite SelectRandomContainerElementIf_unfold by done.
  cbn [prob]. rewrite Z.sub_0_r, Z.sub_add.
  rewrite <- (collect_matching_length p c 0). f_equal.
  rewrite <- (Qcsum_indices _
    (fun o => match o with
              | Some y => if E y then 1%Qc else 0%Qc
              | None => 0%Qc
              end)).
  apply Qcsum_fmap_ext. intros v _.
  by destruct (if bool_decide (0 <= v) then _ else None).
Qed.

Lemma SelectRandomContainerElementIf_returns c p :
  collect_matching p c 0 [] <> [] ->
  returns (SelectRandomContainerElementIf c p)
          (fun r => r ∈ collect_matching p c 0 []).
Proof.
  intros HM. rewrite SelectRandomContainerElementIf_unfold by done.
  cbn [returns].
  assert (0 < length (collect_matching p c 0 []))%nat
    by (destruct (collect_matching p c 0 []); [done | simpl; lia]).
  split; [lia |]. intros v Hv. rewrite bool_decide_true by lia.
  destruct (lookup_lt_is_Some_2 (collect_matching p c 0 []) (Z.to_nat v))
    as [r Hr]; [lia |].
  rewrite Hr. simpl. by eapply list_elem_of_lookup_2.
Qed.

(** C5. [SelectRandomContainerElementIf] returns the end iterator when
    no element satisfies the predicate.  When some element does, it
    returns, whatever the random source draws, the position of an element
    that satisfies the predicate, each such position with probability
    [1 / (number of matching elements)]; so when exactly one position
    matches, every execution returns that position. *)
Theorem SelectRandomContainerElementIf_spec c p :
  ((forall i, ~ matches c p i) ->
     SelectRandomContainerElementIf c p = Ret (length c)) /\
  (forall i, matches c p i ->
     returns (SelectRandomContainerElementIf c p) (matches c p) /\
     prob (SelectRandomContainerElementIf c p) (fun r => bool_decide (r = i))
     = (1 / Qc_of_Z (Z.of_nat (length (List.filter p c))))%Qc /\
     ((forall j, matches c p j -> j = i) ->
        returns (SelectRandomContainerElementIf c p) (fun r => r = i) /\
        forall e : RandomEngine, engine_contract e ->
        forall s, exists s',
          run e (SelectRandomContainerElementIf c p) s = Some (i, s'))).
Proof.
  split.
  - intros Hnone. unfold SelectRandomContainerElementIf.
    rewrite bool_decide_true; [done |].
    destruct (collect_matching p c 0 []) as [| i M] eqn:HM; [done |].
    exfalso. apply (Hnone i). apply collect_matching_matches.
    rewrite HM. left.
  - intros i Hi.
    assert (Hin : i ∈ collect_matching p c 0 [])
      by (by apply collect_matching_matches).
    assert (HM : collect_matching p c 0 [] <> [])
      by (intros HM; rewrite HM in Hin; by apply elem_of_nil in Hin).
    assert (Hret : returns (SelectRandomContainerElementIf c p) (matches c p)).
    { eapply returns_mono; [| by apply SelectRandomContainerElementIf_returns].
      intros r Hr. by apply collect_matching_matches. }
    split; [exact Hret |]. split.
    + rewrite SelectRandomContainerElementIf_prob by done.
      rewrite Qcsum_indicator; [done | apply collect_matching_NoDup | done].
    + intros Honly.
      assert (Hone : returns (SelectRandomContainerElementIf c p)
                       (fun r => r = i))
        by (eapply returns_mono; [| exact Hret]; exact Honly).
      split; [exact Hone |]. intros e He s.
      destruct (returns_run e _ _ He Hone s) as (r & s' & Hrun & ->).
      eauto.
Qed.

End SelectIfTheorem.

(** One odd element, at position 1: it is selected on every draw; no odd
    element: the end iterator. *)
Lemma SelectRandomContainerElementIf_spec_witness :
  matches [10; 21; 30] Z.odd 1 /\
  returns (SelectRandomContainerElementIf [10; 21; 30] Z.odd)
          (fun r => r = 1%nat) /\
  prob (SelectRandomContainerElementIf [10; 21; 30] Z.odd)
       (fun r => bool_decide (r = 1%nat)) = (1 / Qc_of_Z 1)%Qc /\
  SelectRandomContainerElementIf [10; 30] Z.odd = Ret 2%nat.
Proof.
  assert (Hm : matches [10; 21; 30] Z.odd 1) by (exists 21; done).
  assert (Honly : forall j, matches [10; 21; 30] Z.odd j -> j = 1%nat).
  { intros [| [| [| j]]] (x & Hx & Hodd); simpl in Hx; try discriminate;
      injection Hx as <-; done. }
  destruct (SelectRandomContainerElementIf_spec [10; 21; 30] Z.odd)
    as (_ & Hsome).
  destruct (Hsome 1%nat Hm) as (_ & Hprob & Hdet).
  destruct (SelectRandomContainerElementIf_spec [10; 30] Z.odd)
    as (Hnone & _).
  split; [exact Hm |]. split; [exact (proj1 (Hdet Honly)) |].
  split; [exact Hprob |]. apply Hnone.
  intros [| [| j]] (x & Hx & Hodd); simpl in Hx; try discriminate;
    injection Hx as <-; done.
Defined.

(** ** The weighted selector *)

Lemma float_zero_cases (w : float) :
  (w =? 0)%float = true -> w = 0%float \/ w = (-0)%float.
Proof.
  rewrite FloatAxioms.eqb_spec. intros Hw.
  rewrite <- (FloatAxioms.SF2Prim_Prim2SF w).
  destruct (Prim2SF w) as [[] | [] | | [] m e]; try discriminate Hw; auto.
Qed.

Lemma float_positive_not_le (s : float) :
  (0 <? s)%float = true -> (s <=? 0)%float = false.
Proof.
  rewrite FloatAxioms.ltb_spec, FloatAxioms.leb_spec.
  destruct (Prim2SF s) as [[] | [] | | [] m e]; try discriminate; done.
Qed.

Lemma weight_value_one : weight_value 1%float = Some 1%Qc.
Proof.
  unfold weight_value.
  replace (Prim2SF 1%float) with (S754_finite false 4503599627370496 (-52))
    by (vm_compute; reflexivity).
  f_equal. apply Qc_is_canon. reflexivity.
Qed.

Lemma Qcsum_replicate (n : nat) (q : Qc) :
  Qcsum (replicate n q) = (Qc_of_Z (Z.of_nat n) * q)%Qc.
Proof.
  induction n as [| n IH].
  - change (0%Qc = (Qc_of_Z 0 * q)%Qc). rewrite Z2Qc_inj_0. ring.
  - rewrite replicate_S, Qcsum_cons, IH.
    rewrite Nat2Z.inj_succ, <- Z.add_1_r, Z2Qc_inj_add, Z2Qc_inj_1. ring.
Qed.

Lemma weight_values_ones (n : nat) :
  (0 < n)%nat ->
  weight_values (replicate n 1%float) = Some (replicate n 1%Qc).
Proof.
  intros Hn. unfold weight_values.
  assert (Hm : mapM weight_value (replicate n 1%float)
               = Some (replicate n 1%Qc)).
  { apply mapM_Some. clear Hn. induction n; constructor; auto.
    apply weight_value_one. }
  rewrite Hm. simpl. rewrite bool_decide_true; [done |].
  rewrite Qcsum_replicate, Qcmult_1_r.
  rewrite <- Z2Qc_inj_0. apply (proj1 (Z2Qc_inj_lt 0 (Z.of_nat n))). lia.
Qed.

Lemma Qcsum_imap_indicator (F : Qc -> Qc) (qs : list Qc) : forall i : nat,
  Qcsum (imap (fun j q => (F q * if bool_decide (j = i) then 1 else 0)%Qc) qs)
  = match qs !! i with Some q => F q | None => 0%Qc end.
Proof.
  induction qs as [| q qs IH]; intros i; [done |].
  rewrite imap_cons, Qcsum_cons. cbn beta. destruct i as [| i].
  - rewrite bool_decide_true by done. rewrite Qcsum_imap_zero.
    + simpl. ring.
    + intros j q' _. unfold compose. rewrite bool_decide_false by done. ring.
  - rewrite bool_decide_false by done. simpl lookup. rewrite <- IH.
    rewrite Qcmult_0_r, Qcplus_0_l. apply Qcsum_imap_ext.
    intros j q' _. unfold compose. f_equal. rewrite (bool_decide_ext (S j = S i) (j = i)) by lia. done.
Qed.

Section WeightedFacts.
Context {T : Type}.
Implicit Types (c : list T) (weightExtractor : T -> float).

Lemma extract_weights_acc weightExtractor c : forall weights weightSum,
  foldl (fun '(weights, weightSum) val =>
           let weight := weightExtractor val in
           (weights ++ [weight], (weightSum + weight)%float))
        (weights, weightSum) c
  = (weights ++ (weightExtractor <$> c),
     foldl PrimFloat.add weightSum (weightExtractor <$> c)).
Proof.
  induction c as [| x c IH]; intros weights weightSum; simpl.
  - by rewrite app_nil_r.
  - rewrite IH. by rewrite <- app_assoc.
Qed.

Lemma extract_weights_spec weightExtractor c :
  extract_weights weightExtractor c
  = (weightExtractor <$> c, float_sum (weightExtractor <$> c)).
Proof. unfold extract_weights. by rewrite extract_weights_acc. Qed.

(** Zero weights, of either sign, add up to [0.0]. *)
Lemma float_sum_zeros (ws : list float) :
  (forall w, w ∈ ws -> (w =? 0)%float = true) -> float_sum ws = 0%float.
Proof.
  unfold float_sum. induction ws as [| w ws IH]; intros Hz; [done |].
  simpl. destruct (float_zero_cases w) as [-> | ->]; [apply Hz; left | |].
  - change (0 + 0)%float with 0%float. apply IH. intros w' Hw'. apply Hz.
    by right.
  - change (0 + -0)%float with 0%float. apply IH. intros w' Hw'. apply Hz.
    by right.
Qed.

Lemma advance_begin c (i : nat) :
  (i <= length c)%nat -> advance c 0 (Z.of_nat i) = Ret i.
Proof.
  intros Hi. unfold advance. rewrite bool_decide_true by lia.
  by rewrite Nat2Z.id.
Qed.

(** With unit weights the explicit-weights selector picks every position
    with the same probability. *)
Lemma SelectRandomWeightedContainerElement_ones c (i : nat) :
  c <> [] ->
  prob (SelectRandomWeightedContainerElement c (replicate (length c) 1%float))
       (fun r => bool_decide (r = i))
  = if bool_decide (i < length c)%nat
    then (1 / Qc_of_Z (Z.of_nat (length c)))%Qc else 0%Qc.
Proof.
  intros Hc. assert (0 < length c)%nat by (destruct c; [done | simpl; lia]).
  unfold SelectRandomWeightedContainerElement, mbind, Rand_bind, urandweighted.
  cbn [bind prob]. rewrite weight_values_ones by done.
  rewrite Qcsum_replicate, Qcmult_1_r.
  erewrite Qcsum_imap_ext.
  - rewrite (Qcsum_imap_indicator
               (fun q => (q / Qc_of_Z (Z.of_nat (length c)))%Qc)).
    case_bool_decide as Hi.
    + by rewrite (lookup_replicate_2 (length c) 1%Qc i Hi).
    + by rewrite (proj1 (lookup_replicate_None (length c) 1%Qc i))
        by lia.
  - intros j q Hj. apply lookup_replicate in Hj as [-> Hj]. cbn beta.
    rewrite advance_begin by lia. simpl. reflexivity.
Qed.

Lemma uint32_size_minus_one (n : Z) :
  1 <= n <= uint32_modulus -> to_uint32 (to_uint32 n - 1) = n - 1.
Proof.
  intros Hn. destruct (decide (n = uint32_modulus)) as [-> | Hne].
  - reflexivity.
  - rewrite (to_uint32_small n) by lia. apply to_uint32_small. lia.
Qed.

Lemma SelectRandomContainerElement_unfold c :
  SelectRandomContainerElement c =
    Urand 0 (to_uint32 (to_uint32 (Z.of_nat (length c)) - 1))
      (fun n => bind (advance c 0 n)
                  (fun it' => bind (deref c it') (fun _ => Ret it'))).
Proof. reflexivity. Qed.

(** The uniform selector on a container whose size fits the [uint32]
    arithmetic of its bound. *)
Lemma SelectRandomContainerElement_uniform c (i : nat) :
  c <> [] -> Z.of_nat (length c) <= uint32_modulus ->
  prob (SelectRandomContainerElement c) (fun r => bool_decide (r = i))
  = if bool_decide (i < length c)%nat
    then (1 / Qc_of_Z (Z.of_nat (length c)))%Qc else 0%Qc.
Proof.
  intros Hc Hn. assert (0 < length c)%nat by (destruct c; [done | simpl; lia]).
  rewrite SelectRandomContainerElement_unfold.
  rewrite uint32_size_minus_one by lia. cbn [prob].
  rewrite Z.sub_0_r, Z.sub_add.
  set (g := fun o : option nat =>
              match o with
              | Some y => if bool_decide (y = i) then 1%Qc else 0%Qc
              | None => 0%Qc
              end).
  rewrite (Qcsum_fmap_ext _
             (fun v => g (if bool_decide (0 <= v)
                          then seq 0 (length c) !! Z.to_nat v else None))).
  - pose proof (Qcsum_indices (seq 0 (length c)) g) as Hsum.
    rewrite length_seq in Hsum. rewrite Hsum. unfold g.
    case_bool_decide.
    + rewrite Qcsum_indicator; [done | apply NoDup_seq |].
      apply elem_of_seq. lia.
    + rewrite Qcsum_indicator_absent; [by unfold Qcdiv; ring |].
      rewrite elem_of_seq. lia.
  - intros v Hv%elem_of_seqZ.
    rewrite bool_decide_true by lia.
    rewrite lookup_seq_lt by lia. simpl.
    unfold advance. rewrite bool_decide_true by lia. cbn [bind].
    destruct (lookup_lt_is_Some_2 c (Z.to_nat v)) as [x Hx]; [lia |].
    unfold deref. simpl. rewrite Hx. reflexivity.
Qed.

End WeightedFacts.

Section WeightedTheorem.
Context {T : Type}.
Implicit Types (c : list T) (weightExtractor : T -> float).

Lemma extractor_delegates_ones weightExtractor c :
  (float_sum (weightExtractor <$> c) <=? 0)%float = true ->
  SelectRandomWeightedContainerElement_extractor c weightExtractor
  = SelectRandomWeightedContainerElement c (replicate (length c) 1%float).
Proof.
  intros Hsum. unfold SelectRandomWeightedContainerElement_extractor.
  rewrite extract_weights_spec. by rewrite Hsum.
Qed.

Lemma extractor_delegates_computed weightExtractor c :
  (float_sum (weightExtractor <$> c) <=? 0)%float = false ->
  SelectRandomWeightedContainerElement_extractor c weightExtractor
  = SelectRandomWeightedContainerElement c (weightExtractor <$> c).
Proof.
  intros Hsum. unfold SelectRandomWeightedContainerElement_extractor.
  rewrite extract_weights_spec. by rewrite Hsum.
Qed.

Lemma extractor_all_zero weightExtractor c (i : nat) :
  c <> [] ->
  (forall x, x ∈ c -> (weightExtractor x =? 0)%float = true) ->
  prob (SelectRandomWeightedContainerElement_extractor c weightExtractor)
       (fun r => bool_decide (r = i))
  = if bool_decide (i < length c)%nat
    then (1 / Qc_of_Z (Z.of_nat (length c)))%Qc else 0%Qc.
Proof.
  intros Hc Hzero. rewrite extractor_delegates_ones.
  - by apply SelectRandomWeightedContainerElement_ones.
  - rewrite float_sum_zeros; [reflexivity |].
    intros w (x & -> & Hx)%list_elem_of_fmap. by apply Hzero.
Qed.

(** C6 (amended). For a non-empty container the extractor overload
    computes one weight per element and their sum; with a sum [<= 0.0] it
    delegates to the explicit-weights overload with the weight vector
    [1.0, ..., 1.0], with a sum [> 0.0] with the computed weights.  When
    every extracted weight is zero each element is selected with
    probability [1/n], and for a container of at most [2^32] elements the
    distribution is that of [SelectRandomContainerElement]. *)
Theorem SelectRandomWeightedContainerElement_fallback weightExtractor c :
  c <> [] ->
  extract_weights weightExtractor c
  = (weightExtractor <$> c, float_sum (weightExtractor <$> c)) /\
  ((float_sum (weightExtractor <$> c) <=? 0)%float = true ->
     SelectRandomWeightedContainerElement_extractor c weightExtractor
     = SelectRandomWeightedContainerElement c
         (replicate (length c) 1%float)) /\
  ((0 <? float_sum (weightExtractor <$> c))%float = true ->
     SelectRandomWeightedContainerElement_extractor c weightExtractor
     = SelectRandomWeightedContainerElement c (weightExtractor <$> c)) /\
  ((forall x, x ∈ c -> (weightExtractor x =? 0)%float = true) ->
     (forall i : nat, (i < length c)%nat ->
        prob (SelectRandomWeightedContainerElement_extractor c weightExtractor)
             (fun r => bool_decide (r = i))
        = (1 / Qc_of_Z (Z.of_nat (length c)))%Qc) /\
     (Z.of_nat (length c) <= uint32_modulus ->
      forall i : nat,
        prob (SelectRandomWeightedContainerElement_extractor c weightExtractor)
             (fun r => bool_decide (r = i))
        = prob (SelectRandomContainerElement c)
               (fun r => bool_decide (r = i)))).
Proof.
  intros Hc. split; [apply extract_weights_spec |].
  split; [apply extractor_delegates_ones |]. split.
  - intros Hpos. apply extractor_delegates_computed.
    by apply float_positive_not_le.
  - intros Hzero. split.
    + intros i Hi. rewrite extractor_all_zero by done.
      by rewrite bool_decide_true.
    + intros Hn i. rewrite extractor_all_zero by done.
      by rewrite SelectRandomContainerElement_uniform.
Qed.

(** With [2^32 + 1] elements the [uint32] bound of the uniform selector
    is [0]: it always selects the first element. *)
Lemma SelectRandomContainerElement_wraps c x :
  Z.of_nat (length c) = uint32_modulus ->
  prob (SelectRandomContainerElement (x :: c)) (fun r => bool_decide (r = 0%nat))
  = 1%Qc.
Proof.
  intros Hlen. rewrite SelectRandomContainerElement_unfold.
  rewrite length_cons, Nat2Z.inj_succ, Hlen.
  change (to_uint32 (to_uint32 (Z.succ uint32_modulus) - 1)) with 0.
  cbn [prob]. change (seqZ 0 (0 - 0 + 1)) with [0].
  rewrite fmap_cons, fmap_nil, Qcsum_cons.
  unfold advance. rewrite bool_decide_true by lia.
  change (0 + Z.to_nat 0)%nat with 0%nat. cbn [bind].
  change (deref (x :: c) 0) with (Ret x). cbn [bind prob].
  rewrite bool_decide_true by done.
  apply Qc_is_canon. reflexivity.
Qed.

End WeightedTheorem.

Lemma SelectRandomWeightedContainerElement_fallback_witness :
  [10; 20; 30] <> [] /\
  SelectRandomWeightedContainerElement_extractor [10; 20; 30]
    (fun _ => 0%float)
  = SelectRandomWeightedContainerElement [10; 20; 30]
      [1%float; 1%float; 1%float].
Proof.
  split; [done |].
  apply (SelectRandomWeightedContainerElement_fallback
           (fun _ : Z => 0%float) [10; 20; 30]); [done | reflexivity].
Defined.

Lemma SelectRandomWeightedContainerElement_counterexample :
  tt :: huge_container tt <> [] /\
  prob (SelectRandomWeightedContainerElement_extractor
          (tt :: huge_container tt) (fun _ => 0%float))
       (fun r => bool_decide (r = 0%nat))
  = (1 / Qc_of_Z (uint32_modulus + 1))%Qc /\
  prob (SelectRandomContainerElement (tt :: huge_container tt))
       (fun r => bool_decide (r = 0%nat))
  = 1%Qc /\
  (1 / Qc_of_Z (uint32_modulus + 1))%Qc <> 1%Qc.
Proof.
  pose proof (huge_container_length tt) as Hlen.
  split; [done |]. split; [| split].
  - rewrite extractor_all_zero; [| done | intros; reflexivity].
    rewrite bool_decide_true by (rewrite length_cons; lia).
    rewrite length_cons, Nat2Z.inj_succ, Hlen. reflexivity.
  - by apply SelectRandomContainerElement_wraps.
  - intros Heq.
    assert (Qc_of_Z (uint32_modulus + 1) <> 0%Qc) as Hnz
      by (apply Qc_of_Z_nonzero; unfold uint32_modulus; lia).
    assert (Qc_of_Z (uint32_modulus + 1) = Qc_of_Z 1) as Habs.
    { rewrite Z2Qc_inj_1. rewrite <- (Qcmult_1_l (Qc_of_Z _)) at 1.
      rewrite <- Heq at 1. by field. }
    apply Z2Qc_inj in Habs. unfold uint32_modulus in Habs. lia.
Qed.

(** * Facts: [MapGetValuePtr] *)

Section MapFacts.
Context `{Countable K}.

(** C10 (amended). [MapGetValuePtr] never modifies the map.  On a map
    that stores values that are not pointers it returns the address of the
    value mapped to the key when the key is present, and so the null
    pointer if and only if the key is absent.  On a map that stores
    pointers it returns the stored pointer itself when the key is present:
    the result is null if and only if the key is absent or the pointer
    stored for it is null. *)
Theorem MapGetValuePtr_spec :
  (forall (V : Type) (map : gmap K V) (key : K),
     let r := MapGetValuePtr (AddressOrSelf0 := AddressOrSelf_ref) map key in
     r.2 = map /\
     (r.1 = nullptr <-> map !! key = None) /\
     (forall v, map !! key = Some v ->
        r.1 = address key /\ load r.2 r.1 = Some v)) /\
  (forall (P : Type) (map : gmap K (pointer P)) (key : K),
     let r := MapGetValuePtr (AddressOrSelf0 := AddressOrSelf_ptr) map key in
     r.2 = map /\
     (forall ptr, map !! key = Some ptr -> r.1 = ptr) /\
     (r.1 = nullptr <->
        map !! key = None \/ map !! key = Some nullptr)).
Proof.
  split.
  - intros V map key. unfold MapGetValuePtr, find. simpl.
    destruct (map !! key) as [v |] eqn:Hkey; simpl.
    + split; [done |]. split; [split; discriminate |].
      intros v' [= <-]. split; [done |]. exact Hkey.
    + split; [done |]. split; [done |]. discriminate.
  - intros P map key. unfold MapGetValuePtr, find. simpl.
    destruct (map !! key) as [ptr |] eqn:Hkey; simpl.
    + split; [done |]. split; [by intros ? [= <-] |].
      unfold address_or_self, AddressOrSelf_ptr. simpl. split.
      * intros ->. by right.
      * by intros [? | [= <-]].
    + split; [done |]. split; [discriminate |]. split; auto.
Qed.

End MapFacts.

(** A map that stores pointers and holds a null pointer under key [1]:
    the key is present and the result is null. *)
Lemma MapGetValuePtr_null_counterexample :
  ({[1 := nullptr]} : gmap Z (pointer Z)) !! 1 = Some nullptr /\
  (MapGetValuePtr (AddressOrSelf0 := AddressOrSelf_ptr)
     ({[1 := nullptr]} : gmap Z (pointer Z)) 1).1 = nullptr.
Proof. split; reflexivity. Qed.

(** A map that stores integers: a present key gives the address of its
    value, an absent key the null pointer. *)
Lemma MapGetValuePtr_spec_witness :
  ({[1 := 5]} : gmap Z Z) !! 1 = Some 5 /\
  (MapGetValuePtr ({[1 := 5]} : gmap Z Z) 1).1 = address 1 /\
  load ({[1 := 5]} : gmap Z Z) (MapGetValuePtr ({[1 := 5]} : gmap Z Z) 1).1
  = Some 5 /\
  (MapGetValuePtr ({[1 := 5]} : gmap Z Z) 2).1 = nullptr.
Proof.
  destruct (@MapGetValuePtr_spec Z _ _) as [Hval _].
  destruct (Hval Z {[1 := 5]} 1) as (_ & _ & Hpresent).
  destruct (Hval Z {[1 := 5]} 2) as (_ & Habsent & _).
  destruct (Hpresent 5 eq_refl) as [Haddr Hload].
  split; [reflexivity |]. split; [exact Haddr |].
  split; [| by apply Habsent].
  exact Hload.
Defined.

(** * More facts: [RandomResize] on containers of any size *)

Lemma to_uint32_le z : 0 <= z -> to_uint32 z <= z.
Proof.
  intros Hz. unfold to_uint32. apply Z.mod_le; [done |].
  unfold uint32_modulus. lia.
Qed.

Section ResizeAnySize.
Context {T : Type}.
Implicit Types (c l : list T) (p : T -> bool).

(** Whatever [remainingToKeep] is, the pass keeps at most that many
    elements. *)
Lemma reservoir_pass_at_most l : forall K : Z,
  0 <= K ->
  returns (reservoir_pass l K (Z.of_nat (length l)))
          (fun kept => Z.of_nat (length kept) <= K /\ sublist kept l).
Proof.
  induction l as [| x l IH]; intros K HK.
  - simpl. split; [lia | constructor].
  - cbn [reservoir_pass]. rand_calls. cbn [returns].
    simpl length. split; [lia |]. intros v Hv.
    replace (Z.of_nat (S (length l)) - 1) with (Z.of_nat (length l)) by lia.
    destruct (v <=? K) eqn:HvK.
    + apply Z.leb_le in HvK. apply returns_bind.
      eapply returns_mono; [| apply (IH (K - 1)); lia].
      intros kept [Hlen Hsub]. simpl. split; [lia | by constructor].
    + eapply returns_mono; [| apply (IH K); lia].
      intros kept [Hlen Hsub]. split; [done | by constructor].
Qed.

Lemma RandomResize_at_most_returns c (k : nat) :
  returns (RandomResize c k)
          (fun kept => (length kept <= k)%nat /\ sublist kept c).
Proof.
  unfold RandomResize. case_bool_decide as Hsize.
  - simpl. split; [lia | done].
  - cbv zeta.
    pose proof (to_uint32_range (Z.of_nat (length c))) as Hp.
    pose proof (to_uint32_le (Z.of_nat (length c)) ltac:(lia)) as Hple.
    pose proof (to_uint32_range (Z.of_nat k)) as HK.
    pose proof (to_uint32_le (Z.of_nat k) ltac:(lia)) as HKle.
    set (P := Z.to_nat (to_uint32 (Z.of_nat (length c)))) in *.
    assert (HP : (P <= length c)%nat) by lia.
    unfold mbind, Rand_bind.
    eapply returns_equiv.
    { apply Rand_equiv_sym.
      apply (RandomResize_loop_refines P c 0 0 (to_uint32 (Z.of_nat k)));
        lia. }
    rewrite drop_0. cbn [take]. apply returns_bind.
    assert (Hlen : Z.of_nat P = Z.of_nat (length (take P c)))
      by (rewrite length_take; lia).
    rewrite Hlen.
    eapply returns_mono; [| apply reservoir_pass_at_most; lia].
    intros kept [Hk Hsub]. simpl. split; [lia |].
    etrans; [exact Hsub | apply sublist_take].
Qed.

(** X3. For a container of any size, [RandomResize(container, k)] has no
    undefined behaviour, and what it leaves is a subsequence of the
    container with at most [k] elements -- the guarantee the header
    states ("at most <requestedSize> elements"), on every execution with a
    random engine that keeps its contract. *)
Theorem RandomResize_at_most c (k : nat) :
  returns (RandomResize c k)
          (fun kept => (length kept <= k)%nat /\ sublist kept c) /\
  (forall e : RandomEngine, engine_contract e ->
   forall s, exists kept s',
     run e (RandomResize c k) s = Some (kept, s') /\
     (length kept <= k)%nat /\ sublist kept c).
Proof.
  split; [apply RandomResize_at_most_returns |].
  intros e He s. apply returns_run; [done |].
  apply RandomResize_at_most_returns.
Qed.

End ResizeAnySize.

Section ResizePredicateFacts.
Context {T : Type}.
Implicit Types (c l : list T) (p : T -> bool).

Lemma filter_sublist p l : sublist (List.filter p l) l.
Proof.
  induction l as [| x l IH]; simpl; [constructor |].
  destruct (p x); by constructor.
Qed.

Lemma filter_Forall p l : Forall (fun x => p x = true) (List.filter p l).
Proof.
  induction l as [| x l IH]; simpl; [constructor |].
  destruct (p x) eqn:Hpx; [by constructor | done].
Qed.

Lemma filter_true l : List.filter (fun _ : T => true) l = l.
Proof. induction l as [| x l IH]; simpl; [done | by rewrite IH]. Qed.

Lemma RandomResize_predicate_unfold c p (k : nat) :
  RandomResize_predicate c p k =
    if bool_decide (k <> 0%nat) then RandomResize (List.filter p c) k
    else Ret (List.filter p c).
Proof. unfold RandomResize_predicate. by rewrite copy_if_filter. Qed.

(** X4. The predicate overload composes the filter with the resize: for
    a container of any size it has no undefined behaviour and leaves a
    subsequence of the container all of whose elements satisfy the
    predicate, with at most [k] elements when [k <> 0]; when fewer than
    [2^32] elements satisfy the predicate and [k <> 0], it leaves exactly
    [min(m, k)] of the [m] matching elements. *)
Theorem RandomResize_predicate_result c p (k : nat) :
  returns (RandomResize_predicate c p k)
          (fun kept => sublist kept c /\
                       Forall (fun x => p x = true) kept /\
                       (k <> 0%nat -> (length kept <= k)%nat)) /\
  (k <> 0%nat ->
   Z.of_nat (length (List.filter p c)) < uint32_modulus ->
   returns (RandomResize_predicate c p k)
           (fun kept =>
              length kept = Nat.min (length (List.filter p c)) k)).
Proof.
  rewrite RandomResize_predicate_unfold. split.
  - case_bool_decide as Hk.
    + eapply returns_mono; [| apply RandomResize_at_most_returns].
      intros kept [Hlen Hsub]. split; [| split].
      * etrans; [exact Hsub | apply filter_sublist].
      * eapply Forall_forall. intros x Hx.
        eapply (proj1 (Forall_forall _ _) (filter_Forall p c)).
        eapply sublist_subseteq; [exact Hsub | exact Hx].
      * done.
    + simpl. split; [apply filter_sublist |].
      split; [apply filter_Forall | done].
  - intros Hk Hsmall. rewrite bool_decide_true by done.
    destruct (le_lt_dec (length (List.filter p c)) k) as [Hle | Hlt].
    + rewrite RandomResize_no_op by done. simpl. lia.
    + eapply returns_mono; [| by apply RandomResize_returns].
      intros kept [Hlen _]. lia.
Qed.

(** X5. With a predicate that accepts every element the two overloads
    agree for every [k <> 0]; they differ at [k = 0], where the plain
    overload empties the container and the predicate overload leaves it
    whole. *)
Theorem RandomResize_overloads_at_zero c (k : nat) :
  (k <> 0%nat ->
     RandomResize_predicate c (fun _ => true) k = RandomResize c k) /\
  RandomResize_predicate c (fun _ => true) 0 = Ret c /\
  returns (RandomResize c 0) (fun kept => kept = []).
Proof.
  rewrite !RandomResize_predicate_unfold, filter_true.
  split; [| split].
  - intros Hk. by rewrite bool_decide_true.
  - by rewrite bool_decide_false by (intros Hne; by apply Hne).
  - eapply returns_mono; [| apply RandomResize_at_most_returns].
    intros kept [Hlen _]. destruct kept; [done | simpl in Hlen; lia].
Qed.

End ResizePredicateFacts.

(** Two events that agree on every result of [t] have the same
    probability. *)
Lemma prob_ext_outcomes {A} (t : Rand A) (P : A -> Prop) (E1 E2 : A -> bool) :
  outcomes t P -> (forall a, P a -> E1 a = E2 a) -> prob t E1 = prob t E2.
Proof.
  intros Ho HE. induction t as [a | | lo hi k IH | ws k IH]; simpl in *.
  - by rewrite HE.
  - done.
  - f_equal. apply Qcsum_fmap_ext. intros v Hv%elem_of_seqZ.
    apply IH, Ho. lia.
  - destruct (weight_values ws) as [qs |] eqn:Hqs; [| done].
    apply Qcsum_imap_ext. intros i q Hi. f_equal. apply IH, Ho.
    by eapply weight_values_lookup.
Qed.

(** An event every result lies in has the probability that [t] returns. *)
Lemma prob_certain {A} (t : Rand A) (P : A -> Prop) (E : A -> bool) :
  returns t P -> (forall a, P a -> E a = true) -> prob t E = 1%Qc.
Proof.
  intros Hr HE. rewrite <- (prob_total t).
  - eapply prob_ext_outcomes; [by apply returns_outcomes | exact HE].
  - eapply returns_mono; [| exact Hr]. done.
Qed.

Section Marginal.
Context {T X : Type} `{EqDecision X}.
Variable key : T -> X.

Lemma Qc_marginal_step (K n : Z) :
  0 < n ->
  ((Qc_of_Z K * (Qc_of_Z (K - 1) / Qc_of_Z n)
    + Qc_of_Z (n + 1 - K) * (Qc_of_Z K / Qc_of_Z n)) / Qc_of_Z (n + 1)
   = Qc_of_Z K / Qc_of_Z (n + 1))%Qc.
Proof.
  intros Hn.
  assert (Qc_of_Z n <> 0%Qc) by (apply Qc_of_Z_nonzero; lia).
  assert (Qc_of_Z (n + 1) <> 0%Qc) as Hn1 by (apply Qc_of_Z_nonzero; lia).
  rewrite Z2Qc_inj_sub, Z2Qc_inj_1.
  replace (n + 1 - K) with (n - (K - 1)) by lia.
  rewrite !Z2Qc_inj_sub, Z2Qc_inj_1.
  rewrite Z2Qc_inj_add, Z2Qc_inj_1 in *.
  by field.
Qed.

Lemma reservoir_pass_marginal (l : list T) : forall (K : Z) (y : X),
  NoDup (key <$> l) -> y ∈ key <$> l -> 0 <= K <= Z.of_nat (length l) ->
  prob (reservoir_pass l K (Z.of_nat (length l)))
       (fun kept => bool_decide (y ∈ key <$> kept))
  = (Qc_of_Z K / Qc_of_Z (Z.of_nat (length l)))%Qc.
Proof.
  induction l as [| x l IH]; intros K y Hnd Hy HK.
  - by apply elem_of_nil in Hy.
  - rewrite fmap_cons in Hnd, Hy. apply NoDup_cons in Hnd as [Hx Hnd].
    cbn [reservoir_pass]. rand_calls. rewrite length_cons in HK |- *.
    replace (Z.of_nat (S (length l)) - 1) with (Z.of_nat (length l)) by lia.
    assert (Hn : Qc_of_Z (Z.of_nat (S (length l))) <> 0%Qc)
      by (apply Qc_of_Z_nonzero; lia).
    destruct (decide (y = key x)) as [-> | Hne].
    + (* the element asked about is the first one *)
      rewrite (prob_urand_threshold _ K _ _ 1%Qc 0%Qc); [| lia | |].
      * by field.
      * intros v Hv. destruct Hv as [Hv1 Hv]. apply Z.leb_le in Hv as Hle.
        rewrite Hle. rewrite prob_bind_Ret.
        eapply prob_certain; [apply reservoir_pass_returns; lia |].
        intros kept _. apply bool_decide_eq_true. rewrite fmap_cons. left.
      * intros v [Hv _]. apply Z.leb_gt in Hv. rewrite Hv.
        eapply prob_impossible; [apply reservoir_pass_outcomes |].
        intros kept Hk. apply bool_decide_eq_false. intros Hin.
        apply Hx. eapply sublist_subseteq; [| exact Hin].
        by apply fmap_sublist.
    + (* it is one of the later ones *)
      apply elem_of_cons in Hy as [? | Hy]; [done |].
      assert (0 < length l)%nat as Hpos.
      { destruct l; [by apply elem_of_nil in Hy | simpl; lia]. }
      rewrite (prob_urand_threshold _ K _ _
                 (Qc_of_Z (K - 1) / Qc_of_Z (Z.of_nat (length l)))%Qc
                 (Qc_of_Z K / Qc_of_Z (Z.of_nat (length l)))%Qc);
        [| lia | |].
      * replace (Z.of_nat (S (length l))) with (Z.of_nat (length l) + 1)
          by lia.
        apply Qc_marginal_step. lia.
      * intros v [Hv1 Hv]. apply Z.leb_le in Hv as Hle. rewrite Hle.
        rewrite prob_bind_Ret. rewrite <- (IH (K - 1) y) by (done || lia).
        apply prob_ext. intros kept. apply bool_decide_ext.
        rewrite fmap_cons, elem_of_cons. split; [by intros [? | ?] |].
        by right.
      * intros v [Hv Hv2]. apply Z.leb_gt in Hv as Hgt. rewrite Hgt.
        apply IH; [done | done | lia].
Qed.

End Marginal.

Section MarginalTheorem.
Context {T : Type}.
Implicit Types (c : list T).

(** X6. For [k < n < 2^32] and independent uniform draws, every position
    of the container survives [RandomResize] with probability [k / n]. *)
Theorem RandomResize_keeps_each_with_chance c (k i : nat) :
  (k < length c)%nat -> Z.of_nat (length c) < uint32_modulus ->
  (i < length c)%nat ->
  prob (RandomResize (with_positions c) k)
       (fun kept => bool_decide (i ∈ kept.*1))
  = (Qc_of_Z (Z.of_nat k) / Qc_of_Z (Z.of_nat (length c)))%Qc.
Proof.
  intros Hk Hn Hi.
  pose proof (with_positions_length c) as Hlen.
  rewrite (prob_equiv _ (reservoir_pass (with_positions c) (Z.of_nat k)
                           (Z.of_nat (length (with_positions c))))).
  - rewrite <- Hlen. apply reservoir_pass_marginal.
    + rewrite with_positions_fst. apply NoDup_seq.
    + rewrite with_positions_fst. apply elem_of_seq. lia.
    + lia.
  - apply RandomResize_refines; lia.
Qed.

End MarginalTheorem.

(** Ten elements, three to keep: position 7 survives with probability
    [3 / 10]. *)
Lemma RandomResize_keeps_each_with_chance_witness :
  (3 < length [10; 11; 12; 13; 14; 15; 16; 17; 18; 19])%nat /\
  Z.of_nat (length [10; 11; 12; 13; 14; 15; 16; 17; 18; 19])
    < uint32_modulus /\
  (7 < length [10; 11; 12; 13; 14; 15; 16; 17; 18; 19])%nat /\
  prob (RandomResize
          (with_positions [10; 11; 12; 13; 14; 15; 16; 17; 18; 19]) 3)
       (fun kept => bool_decide (7%nat ∈ kept.*1))
  = (Qc_of_Z 3 / Qc_of_Z 10)%Qc.
Proof.
  split; [simpl; lia |]. split; [reflexivity |]. split; [simpl; lia |].
  apply (RandomResize_keeps_each_with_chance
           [10; 11; 12; 13; 14; 15; 16; 17; 18; 19] 3 7);
    [simpl; lia | reflexivity | simpl; lia].
Defined.

(** * More facts: the element selectors *)

Section SelectorExtras.
Context {T : Type}.
Implicit Types (c : list T) (p : T -> bool).

Lemma SelectRandomContainerElement_returns c :
  c <> [] -> Z.of_nat (length c) <= uint32_modulus ->
  returns (SelectRandomContainerElement c) (fun i => (i < length c)%nat).
Proof.
  intros Hc Hn. assert (0 < length c)%nat by (destruct c; [done | simpl; lia]).
  rewrite SelectRandomContainerElement_unfold.
  rewrite uint32_size_minus_one by lia. cbn [returns].
  split; [lia |]. intros v Hv.
  unfold advance. rewrite bool_decide_true by lia. cbn [bind].
  destruct (lookup_lt_is_Some_2 c (0 + Z.to_nat v)) as [x Hx]; [lia |].
  unfold deref. rewrite Hx. simpl. lia.
Qed.

(** X7. On a non-empty container of at most [2^32] elements
    [SelectRandomContainerElement] has no undefined behaviour, returns the
    position of an element of the container on every execution, and under
    a uniform draw selects each position with probability [1 / n]. *)
Theorem SelectRandomContainerElement_fair c :
  c <> [] -> Z.of_nat (length c) <= uint32_modulus ->
  returns (SelectRandomContainerElement c) (fun i => (i < length c)%nat) /\
  (forall e : RandomEngine, engine_contract e ->
   forall s, exists i s',
     run e (SelectRandomContainerElement c) s = Some (i, s') /\
     (i < length c)%nat) /\
  (forall i : nat, (i < length c)%nat ->
     prob (SelectRandomContainerElement c) (fun r => bool_decide (r = i))
     = (1 / Qc_of_Z (Z.of_nat (length c)))%Qc).
Proof.
  intros Hc Hn.
  pose proof (SelectRandomContainerElement_returns c Hc Hn) as Hret.
  split; [exact Hret |]. split.
  - intros e He s. by apply returns_run.
  - intros i Hi. rewrite SelectRandomContainerElement_uniform by done.
    by rewrite bool_decide_true.
Qed.

(** X8. On an empty container: [SelectRandomContainerElement] is undefined
    behaviour on every execution, whatever the engine draws;
    [SelectRandomContainerElementIf] makes no draw and returns the end
    iterator; the weighted selectors draw over an empty weight vector,
    which is outside the contract of the random source. *)
Theorem selectors_on_empty_container :
  (forall (e : RandomEngine) s,
     run e (SelectRandomContainerElement (@nil T)) s = None) /\
  (forall p, SelectRandomContainerElementIf (@nil T) p = Ret 0%nat) /\
  (forall (weightExtractor : T -> float) (P : nat -> Prop),
     SelectRandomWeightedContainerElement_extractor [] weightExtractor
     = SelectRandomWeightedContainerElement (@nil T) [] /\
     ~ returns (SelectRandomWeightedContainerElement (@nil T) []) P).
Proof.
  split; [| split].
  - intros e s. rewrite SelectRandomContainerElement_unfold. cbn [run].
    destruct (engine_urand e _ _ s) as [v s'].
    unfold advance. case_bool_decide as Hv; [| done].
    simpl in Hv. replace v with 0 by lia. reflexivity.
  - intros p. reflexivity.
  - intros weightExtractor P. split; [reflexivity |].
    unfold SelectRandomWeightedContainerElement. rand_calls.
    cbn [returns]. intros [[qs Hqs] _]. by vm_compute in Hqs.
Qed.

(** X9. With a predicate that accepts every element,
    [SelectRandomContainerElementIf] has the distribution of
    [SelectRandomContainerElement] on every non-empty container of at most
    [2^32] elements. *)
Theorem SelectRandomContainerElementIf_all c (i : nat) :
  c <> [] -> Z.of_nat (length c) <= uint32_modulus ->
  prob (SelectRandomContainerElementIf c (fun _ => true))
       (fun r => bool_decide (r = i))
  = prob (SelectRandomContainerElement c) (fun r => bool_decide (r = i)).
Proof.
  intros Hc Hn.
  assert (Hm : forall j, j ∈ collect_matching (fun _ : T => true) c 0 []
                         <-> (j < length c)%nat).
  { intros j. rewrite collect_matching_matches. unfold matches. split.
    - intros (x & Hx & _). by eapply lookup_lt_Some.
    - intros Hj. destruct (lookup_lt_is_Some_2 c j Hj) as [x Hx]. eauto. }
  assert (HM : collect_matching (fun _ : T => true) c 0 [] <> []).
  { intros HM. destruct c as [| x c]; [done |].
    specialize (Hm 0%nat). rewrite HM in Hm.
    apply (elem_of_nil 0%nat), Hm. simpl. lia. }
  rewrite SelectRandomContainerElementIf_prob by done.
  rewrite SelectRandomContainerElement_uniform by done.
  rewrite filter_true. case_bool_decide as Hi.
  - rewrite Qcsum_indicator; [done | apply collect_matching_NoDup |].
    by apply Hm.
  - rewrite Qcsum_indicator_absent; [by unfold Qcdiv; ring |].
    by rewrite Hm.
Qed.

End SelectorExtras.

(** ** The weighted selectors *)

Lemma float_nan_spec (w : float) :
  is_nan w = true -> Prim2SF w = S754_nan.
Proof.
  unfold is_nan. rewrite FloatAxioms.eqb_spec. unfold SFeqb.
  destruct (Prim2SF w) as [[] | [] | | [] m e]; simpl; try discriminate;
    try reflexivity;
    rewrite Z.compare_refl, Pos.compare_cont_refl; discriminate.
Qed.

Lemma float_add_nan_l (x y : float) :
  Prim2SF x = S754_nan -> Prim2SF (x + y)%float = S754_nan.
Proof. intros Hx. rewrite FloatAxioms.add_spec, Hx. reflexivity. Qed.

Lemma float_add_nan_r (x y : float) :
  Prim2SF y = S754_nan -> Prim2SF (x + y)%float = S754_nan.
Proof.
  intros Hy. rewrite FloatAxioms.add_spec, Hy.
  by destruct (Prim2SF x).
Qed.

(** A NaN among the summands makes the sum NaN. *)
Lemma float_foldl_nan (ws : list float) : forall acc,
  Prim2SF acc = S754_nan \/ (exists w, w ∈ ws /\ Prim2SF w = S754_nan) ->
  Prim2SF (foldl PrimFloat.add acc ws) = S754_nan.
Proof.
  induction ws as [| w ws IH]; intros acc Hnan; simpl.
  - destruct Hnan as [? | (w & Hw & _)]; [done | by apply elem_of_nil in Hw].
  - apply IH. destruct Hnan as [Hacc | (w' & Hw' & Hnan)].
    + left. by apply float_add_nan_l.
    + apply elem_of_cons in Hw' as [-> | Hw'].
      * left. by apply float_add_nan_r.
      * right. eauto.
Qed.

Lemma float_nan_not_le (s : float) :
  Prim2SF s = S754_nan -> (s <=? 0)%float = false.
Proof. intros Hs. rewrite FloatAxioms.leb_spec, Hs. reflexivity. Qed.

Lemma weight_values_nan (ws : list float) :
  (exists w, w ∈ ws /\ Prim2SF w = S754_nan) -> weight_values ws = None.
Proof.
  intros (w & Hw & Hnan). unfold weight_values.
  assert (mapM weight_value ws = None) as ->; [| done].
  apply mapM_None. apply Exists_exists. exists w. split; [done |].
  unfold weight_value. by rewrite Hnan.
Qed.

Section WeightedExtras.
Context {T : Type}.
Implicit Types (c : list T).

(** X10. With a weight vector that is a valid distribution and has no
    more entries than the container has elements, the explicit-weights
    selector has no undefined behaviour, returns an index of the weight
    vector, and selects position [i] with probability
    [weight_i / sum of the weights]. *)
Theorem SelectRandomWeightedContainerElement_proportional c weights qs :
  weight_values weights = Some qs ->
  (length weights <= length c)%nat ->
  returns (SelectRandomWeightedContainerElement c weights)
          (fun i => (i < length weights)%nat) /\
  (forall (i : nat) (q : Qc), qs !! i = Some q ->
     prob (SelectRandomWeightedContainerElement c weights)
          (fun r => bool_decide (r = i))
     = (q / Qcsum qs)%Qc) /\
  (forall i : nat, (length weights <= i)%nat ->
     prob (SelectRandomWeightedContainerElement c weights)
          (fun r => bool_decide (r = i)) = 0%Qc).
Proof.
  intros Hqs Hlen.
  pose proof (weight_values_length _ _ Hqs) as Hqlen.
  assert (Hprob : forall i : nat,
            prob (SelectRandomWeightedContainerElement c weights)
                 (fun r => bool_decide (r = i))
            = match qs !! i with
              | Some q => (q / Qcsum qs)%Qc
              | None => 0%Qc
              end).
  { intros i. unfold SelectRandomWeightedContainerElement. rand_calls.
    cbn [prob]. rewrite Hqs.
    rewrite <- (Qcsum_imap_indicator (fun q => (q / Qcsum qs)%Qc)).
    apply Qcsum_imap_ext. intros j q Hj.
    assert (j < length weights)%nat
      by (rewrite <- Hqlen; by eapply lookup_lt_Some).
    rewrite advance_begin by lia. reflexivity. }
  split; [| split].
  - unfold SelectRandomWeightedContainerElement. rand_calls. cbn [returns].
    split; [by eexists |]. intros i Hi.
    rewrite advance_begin by lia. done.
  - intros i q Hi. by rewrite Hprob, Hi.
  - intros i Hi. rewrite Hprob.
    by rewrite (proj2 (lookup_ge_None qs i)) by lia.
Qed.

(** X11. When the extractor returns NaN for some element, the sum of the
    weights is NaN, the comparison [weightSum <= 0.0] is false and the
    fallback to unit weights is not taken: the explicit-weights selector
    is called with the extracted weights, which are not a valid
    distribution (a draw outside the contract of the random source). *)
Theorem SelectRandomWeightedContainerElement_nan c
    (weightExtractor : T -> float) :
  (exists x, x ∈ c /\ is_nan (weightExtractor x) = true) ->
  (float_sum (weightExtractor <$> c) <=? 0)%float = false /\
  SelectRandomWeightedContainerElement_extractor c weightExtractor
  = SelectRandomWeightedContainerElement c (weightExtractor <$> c) /\
  weight_values (weightExtractor <$> c) = None /\
  (forall P,
     ~ returns (SelectRandomWeightedContainerElement_extractor
                  c weightExtractor) P).
Proof.
  intros (x & Hx & Hnan%float_nan_spec).
  assert (Hin : exists w, w ∈ weightExtractor <$> c /\ Prim2SF w = S754_nan).
  { exists (weightExtractor x). split; [| done].
    apply list_elem_of_fmap. eauto. }
  assert (Hsum : (float_sum (weightExtractor <$> c) <=? 0)%float = false).
  { apply float_nan_not_le. apply float_foldl_nan. by right. }
  pose proof (weight_values_nan _ Hin) as Hinvalid.
  split; [exact Hsum |].
  split; [by apply extractor_delegates_computed |].
  split; [exact Hinvalid |]. intros P.
  rewrite extractor_delegates_computed by done.
  unfold SelectRandomWeightedContainerElement. rand_calls. cbn [returns].
  rewrite Hinvalid. intros [[qs Hqs] _]. discriminate.
Qed.

End WeightedExtras.

(** Weights [1, 1, 2]: the third element is selected with probability
    [1/2]. *)
Lemma SelectRandomWeightedContainerElement_proportional_witness :
  (length [1%float; 1%float; 2%float] <= length [10; 20; 30])%nat /\
  prob (SelectRandomWeightedContainerElement [10; 20; 30]
          [1%float; 1%float; 2%float])
       (fun r => bool_decide (r = 2%nat))
  = Q2Qc (1 # 2).
Proof.
  split; [simpl; lia |].
  destruct (weight_values [1%float; 1%float; 2%float]) as [qs |] eqn:Hqs;
    [| by vm_compute in Hqs].
  destruct (SelectRandomWeightedContainerElement_proportional
              [10; 20; 30] [1%float; 1%float; 2%float] qs Hqs)
    as (_ & Hprob & _); [simpl; lia |].
  vm_compute in Hqs. injection Hqs as <-.
  erewrite Hprob; [| reflexivity].
  apply Qc_is_canon. vm_compute. reflexivity.
Defined.

Lemma SelectRandomWeightedContainerElement_nan_witness :
  (exists x, x ∈ [10; 20; 30] /\ is_nan ((fun _ : Z => nan) x) = true) /\
  SelectRandomWeightedContainerElement_extractor [10; 20; 30] (fun _ => nan)
  = SelectRandomWeightedContainerElement [10; 20; 30] [nan; nan; nan].
Proof.
  assert (Hnan : exists x, x ∈ [10; 20; 30]
                           /\ is_nan ((fun _ : Z => nan) x) = true).
  { exists 10. split; [left | reflexivity]. }
  split; [exact Hnan |].
  exact (proj1 (proj2 (SelectRandomWeightedContainerElement_nan
                         [10; 20; 30] (fun _ => nan) Hnan))).
Defined.

(** * More facts: [EraseIf] *)

Section EraseIfExtras.
Context {T : Type}.
Implicit Types (c : list T) (p q : T -> bool).

Lemma EraseIf_move_filter c p :
  EraseIf_move c p = Some (List.filter (fun x => negb (p x)) c).
Proof.
  unfold EraseIf_move.
  destruct (EraseIf_move_loop_spec p (length c) c 0 0)
    as (c' & wpos' & Hrun & Htake); [lia | lia |].
  rewrite Hrun. simpl. f_equal. by rewrite Htake, drop_0.
Qed.

Lemma EraseIf_erase_filter c p :
  EraseIf_erase c p = Some (List.filter (fun x => negb (p x)) c).
Proof.
  unfold EraseIf_erase. rewrite EraseIf_erase_loop_spec by lia.
  by rewrite drop_0.
Qed.

Lemma filter_filter_or p q (l : list T) :
  List.filter (fun x => negb (q x)) (List.filter (fun x => negb (p x)) l)
  = List.filter (fun x => negb (p x || q x)) l.
Proof.
  induction l as [| x l IH]; simpl; [done |].
  destruct (p x) eqn:Hp; simpl; [done |].
  destruct (q x) eqn:Hq; simpl; by rewrite IH.
Qed.

Lemma filter_length_split p (l : list T) :
  (length (List.filter p l) + length (List.filter (fun x => negb (p x)) l)
   = length l)%nat.
Proof.
  induction l as [| x l IH]; simpl; [done |].
  destruct (p x); simpl; lia.
Qed.

(** X12. After either overload of [EraseIf] no element of the container
    satisfies the predicate, the container has shrunk by the number of
    elements that did, and erasing again with the same predicate changes
    nothing; a predicate that holds for no element leaves the container
    as it is. *)
Theorem EraseIf_nothing_left c p :
  exists c',
    EraseIf_move c p = Some c' /\ EraseIf_erase c p = Some c' /\
    Forall (fun x => p x = false) c' /\
    (length c' + length (List.filter p c) = length c)%nat /\
    EraseIf_move c' p = Some c' /\ EraseIf_erase c' p = Some c' /\
    (Forall (fun x => p x = false) c -> c' = c).
Proof.
  exists (List.filter (fun x => negb (p x)) c).
  assert (Hnone : Forall (fun x => p x = false)
                    (List.filter (fun x => negb (p x)) c)).
  { eapply Forall_impl; [apply filter_Forall |].
    intros x Hx. by apply negb_true_iff. }
  assert (Hid : forall l, Forall (fun x => p x = false) l ->
                  List.filter (fun x => negb (p x)) l = l).
  { intros l Hl. apply filter_all. intros i x Hx.
    apply negb_true_iff.
    exact (Forall_lookup_1 (fun x => p x = false) l i x Hl Hx). }
  split; [apply EraseIf_move_filter |].
  split; [apply EraseIf_erase_filter |].
  split; [exact Hnone |]. split.
  - pose proof (filter_length_split p c). lia.
  - rewrite EraseIf_move_filter, EraseIf_erase_filter, Hid by done.
    split; [done |]. split; [done |]. apply Hid.
Qed.

(** X13. Erasing with one predicate and then with another is erasing with
    their disjunction, for both overloads; so the order of two erasures
    does not matter. *)
Theorem EraseIf_twice c p q :
  (EraseIf_move c p ≫= fun c' => EraseIf_move c' q)
  = EraseIf_move c (fun x => p x || q x) /\
  (EraseIf_erase c p ≫= fun c' => EraseIf_erase c' q)
  = EraseIf_erase c (fun x => p x || q x) /\
  (EraseIf_move c p ≫= fun c' => EraseIf_move c' q)
  = (EraseIf_move c q ≫= fun c' => EraseIf_move c' p) /\
  (EraseIf_erase c p ≫= fun c' => EraseIf_erase c' q)
  = (EraseIf_erase c q ≫= fun c' => EraseIf_erase c' p).
Proof.
  rewrite !EraseIf_move_filter, !EraseIf_erase_filter. simpl.
  rewrite !EraseIf_move_filter, !EraseIf_erase_filter.
  rewrite !filter_filter_or.
  assert (Hcomm : List.filter (fun x => negb (q x || p x)) c
                  = List.filter (fun x => negb (p x || q x)) c).
  { apply filter_agree. intros i x _. by rewrite orb_comm. }
  rewrite Hcomm. done.
Qed.

End EraseIfExtras.

(** * More facts: [MultimapErasePair] *)

Section MultimapExtras.
Context {K V : Type} `{EqDecision K} `{EqDecision V}.
Variable less : K -> K -> bool.
Implicit Types (m : list (K * V)) (key : K) (value : V).

Lemma key_ordered_cons_inv e m :
  key_ordered less (e :: m) ->
  (forall e', e' ∈ m -> less e'.1 e.1 = false) /\ key_ordered less m.
Proof.
  intros Hord. split.
  - intros e' (j & Hj)%list_elem_of_lookup.
    apply (Hord 0%nat (S j) e e'); [lia | done | done].
  - intros i j e1 e2 Hij H1 H2.
    apply (Hord (S i) (S j) e1 e2); [lia | done | done].
Qed.

Lemma key_ordered_cons e m :
  (forall e', e' ∈ m -> less e'.1 e.1 = false) -> key_ordered less m ->
  key_ordered less (e :: m).
Proof.
  intros Hhead Hord [| i] [| j] e1 e2 Hij H1 H2; simpl in *; try lia.
  - injection H1 as <-. apply Hhead. by eapply list_elem_of_lookup_2.
  - apply (Hord i j e1 e2); [lia | done | done].
Qed.

(** Removing entries keeps a multimap ordered. *)
Lemma key_ordered_filter (f : K * V -> bool) m :
  key_ordered less m -> key_ordered less (List.filter f m).
Proof.
  induction m as [| e m IH]; intros Hord; simpl; [done |].
  apply key_ordered_cons_inv in Hord as [Hhead Hord].
  destruct (f e); [| by apply IH].
  apply key_ordered_cons; [| by apply IH].
  intros e' He'. apply Hhead.
  eapply sublist_subseteq; [apply filter_sublist | exact He'].
Qed.

Lemma not_the_pair_idem key value m :
  List.filter (not_the_pair key value) (List.filter (not_the_pair key value) m)
  = List.filter (not_the_pair key value) m.
Proof.
  apply filter_all. intros i e He.
  eapply (proj1 (Forall_forall _ _) (filter_Forall (not_the_pair key value) m)).
  by eapply list_elem_of_lookup_2.
Qed.

Hypothesis less_irrefl : forall a, less a a = false.
Hypothesis less_trans :
  forall a b c, less a b = true -> less b c = true -> less a c = true.
Hypothesis less_total :
  forall a b, less a b = false -> less b a = false -> a = b.

Lemma MultimapErasePair_ordered_filter m key value :
  key_ordered less m ->
  MultimapErasePair less m key value
  = Some (List.filter (not_the_pair key value) m).
Proof.
  intros Hord. unfold MultimapErasePair.
  apply MultimapErasePair_range_exact.
  by apply equal_range_ordered.
Qed.

(** X14. On a multimap ordered by a strict total order on the keys,
    [MultimapErasePair] leaves a multimap that is still ordered and holds
    no entry equal to the pair; erasing the same pair again changes
    nothing. *)
Theorem MultimapErasePair_keeps_order m key value :
  key_ordered less m ->
  exists m',
    MultimapErasePair less m key value = Some m' /\
    key_ordered less m' /\
    ((key, value) ∉ m') /\
    MultimapErasePair less m' key value = Some m'.
Proof.
  intros Hord. exists (List.filter (not_the_pair key value) m).
  assert (Hord' : key_ordered less (List.filter (not_the_pair key value) m))
    by (by apply key_ordered_filter).
  split; [by apply MultimapErasePair_ordered_filter |].
  split; [exact Hord' |]. split.
  - intros Hin.
    pose proof (proj1 (Forall_forall _ _)
                  (filter_Forall (not_the_pair key value) m) _ Hin) as Hnot.
    unfold not_the_pair in Hnot. simpl in Hnot.
    by rewrite bool_decide_true in Hnot.
  - rewrite MultimapErasePair_ordered_filter by done.
    by rewrite not_the_pair_idem.
Qed.

(** X15. On an ordered multimap that does not hold the pair -- the key is
    missing, or no entry of the key has the value -- [MultimapErasePair]
    changes nothing; in general the multimap shrinks by the number of
    entries equal to the pair, and the entries of every other key are
    those it had. *)
Theorem MultimapErasePair_missing_pair m key value :
  key_ordered less m ->
  exists m',
    MultimapErasePair less m key value = Some m' /\
    (((key, value) ∉ m) -> m' = m) /\
    (length m' + length (List.filter (fun e => bool_decide (e = (key, value))) m)
     = length m)%nat /\
    (forall key', key' <> key ->
       List.filter (fun e => bool_decide (e.1 = key')) m'
       = List.filter (fun e => bool_decide (e.1 = key')) m).
Proof.
  intros Hord. exists (List.filter (not_the_pair key value) m).
  split; [by apply MultimapErasePair_ordered_filter |]. split; [| split].
  - intros Hnotin. apply filter_all. intros i e He.
    unfold not_the_pair. apply negb_true_iff, bool_decide_eq_false.
    intros [Hk Hv]. apply Hnotin. destruct e as [k v]. simpl in *. subst.
    by eapply list_elem_of_lookup_2.
  - rewrite <- (filter_length_split
                  (fun e => bool_decide (e = (key, value))) m).
    rewrite Nat.add_comm. f_equal. f_equal.
    apply filter_agree. intros i [k v] _. unfold not_the_pair. simpl.
    f_equal. apply bool_decide_ext. split; [by intros [-> ->] |].
    by intros [= -> ->].
  - intros key' Hne. clear Hord. induction m as [| e m IH]; simpl; [done |].
    unfold not_the_pair at 1.
    destruct (decide (e.1 = key /\ e.2 = value)) as [[Hk Hv] | Hno].
    + rewrite bool_decide_true by done.
      simpl. rewrite (bool_decide_false (e.1 = key')) by congruence.
      exact IH.
    + rewrite bool_decide_false by done. simpl.
      destruct (bool_decide (e.1 = key')); [by rewrite IH | exact IH].
Qed.

End MultimapExtras.

(** ** Examples *)

Lemma Z_ltb_trans (a b c : Z) :
  (a <? b) = true -> (b <? c) = true -> (a <? c) = true.
Proof. intros Hab%Z.ltb_lt Hbc%Z.ltb_lt. apply Z.ltb_lt. lia. Qed.

Lemma Z_ltb_total (a b : Z) : (a <? b) = false -> (b <? a) = false -> a = b.
Proof. intros Hab%Z.ltb_ge Hba%Z.ltb_ge. lia. Qed.

Lemma example_multimap_ordered :
  key_ordered Z.ltb [(1, 10); (1, 20); (1, 10); (2, 10); (3, 30)].
Proof.
  intros i j e1 e2 Hij H1 H2.
  destruct i as [| [| [| [| [| i]]]]]; simpl in H1; try discriminate;
    injection H1 as <-;
    destruct j as [| [| [| [| [| j]]]]]; simpl in H2; try discriminate;
    try lia; injection H2 as <-; reflexivity.
Qed.

Lemma MultimapErasePair_keeps_order_witness :
  key_ordered Z.ltb [(1, 10); (1, 20); (1, 10); (2, 10); (3, 30)] /\
  exists m',
    MultimapErasePair Z.ltb [(1, 10); (1, 20); (1, 10); (2, 10); (3, 30)] 1 10
    = Some m' /\
    key_ordered Z.ltb m' /\
    ((1, 10) ∉ m') /\
    MultimapErasePair Z.ltb m' 1 10 = Some m'.
Proof.
  split; [exact example_multimap_ordered |].
  exact (MultimapErasePair_keeps_order Z.ltb Z.ltb_irrefl Z_ltb_trans
           Z_ltb_total _ 1 10 example_multimap_ordered).
Defined.

Lemma MultimapErasePair_missing_pair_witness :
  key_ordered Z.ltb [(1, 10); (1, 20); (1, 10); (2, 10); (3, 30)] /\
  ((2, 20) ∉ [(1, 10); (1, 20); (1, 10); (2, 10); (3, 30)]) /\
  MultimapErasePair Z.ltb [(1, 10); (1, 20); (1, 10); (2, 10); (3, 30)] 2 20
  = Some [(1, 10); (1, 20); (1, 10); (2, 10); (3, 30)].
Proof.
  assert (Hmissing : (2, 20) ∉ [(1, 10); (1, 20); (1, 10); (2, 10); (3, 30)]).
  { intros Hin. repeat (apply elem_of_cons in Hin as [[=] | Hin]).
    by apply elem_of_nil in Hin. }
  split; [exact example_multimap_ordered |]. split; [exact Hmissing |].
  destruct (MultimapErasePair_missing_pair Z.ltb Z.ltb_irrefl Z_ltb_trans
              Z_ltb_total _ 2 20 example_multimap_ordered)
    as (m' & -> & Hsame & _).
  f_equal. by apply Hsame.
Defined.

Lemma SelectRandomContainerElement_fair_witness :
  [10; 20; 30; 40] <> [] /\
  Z.of_nat (length [10; 20; 30; 40]) <= uint32_modulus /\
  prob (SelectRandomContainerElement [10; 20; 30; 40])
       (fun r => bool_decide (r = 2%nat)) = (1 / Qc_of_Z 4)%Qc /\
  exists i s',
    run lcg_engine (SelectRandomContainerElement [10; 20; 30; 40]) 2024
    = Some (i, s') /\ (i < 4)%nat.
Proof.
  assert (Hn : Z.of_nat (length [10; 20; 30; 40]) <= uint32_modulus)
    by (vm_compute; discriminate).
  destruct (SelectRandomContainerElement_fair [10; 20; 30; 40])
    as (_ & Hrun & Hprob); [done | exact Hn |].
  split; [done |]. split; [exact Hn |]. split.
  - apply (Hprob 2%nat). simpl. lia.
  - exact (Hrun lcg_engine lcg_engine_contract 2024).
Defined.

Lemma SelectRandomContainerElementIf_all_witness :
  [10; 20; 30; 40] <> [] /\
  Z.of_nat (length [10; 20; 30; 40]) <= uint32_modulus /\
  prob (SelectRandomContainerElementIf [10; 20; 30; 40] (fun _ => true))
       (fun r => bool_decide (r = 2%nat))
  = prob (SelectRandomContainerElement [10; 20; 30; 40])
         (fun r => bool_decide (r = 2%nat)).
Proof.
  assert (Hn : Z.of_nat (length [10; 20; 30; 40]) <= uint32_modulus)
    by (vm_compute; discriminate).
  split; [done |]. split; [exact Hn |].
  by apply (SelectRandomContainerElementIf_all [10; 20; 30; 40] 2).
Defined.
